(** * linkcheck.logger: the base [Logger] class

    A shallow embedding of [linkcheck/logger/__init__.py] (Python 2: the
    module uses [file] and [unicode]) and the properties of its accounting,
    part selection, alignment, text codec and file-output life cycle.

    Methods of [Logger] become functions in a state-and-exception monad over
    a [Machine]: the attributes of the logger object, the outside world and
    the trace of calls made to the outside.  A raised exception keeps the
    machine reached so far, as attribute assignments do in Python. *)

From stdpp Require Import base strings list gmap.
From Stdlib Require Import ZArith Lia.
From Stdlib.Strings Require Import Byte Ascii.

Local Open Scope string_scope.
Local Open Scope list_scope.
Local Open Scope Z_scope.

(** ** Python values and exceptions *)

(** The exception classes this module raises, catches or lets through. *)
Inductive Exn : Type :=
  | EnvironmentError
  | IOError
  | OSError
  | LookupError
  | KeyError
  | AttributeError
  | ValueError
  | UnicodeError
  | TypeError
  | NotImplementedError.

#[global] Instance Exn_eq_dec : EqDecision Exn.
Proof. solve_decision. Defined.

(** The base class in Python 2's hierarchy, where it is one of the classes
    above.  [IOError] and [OSError] are siblings below [EnvironmentError];
    [KeyError] is below [LookupError], [UnicodeError] below [ValueError]. *)
Definition exn_base (e : Exn) : option Exn :=
  match e with
  | IOError | OSError => Some EnvironmentError
  | KeyError => Some LookupError
  | UnicodeError => Some ValueError
  | _ => None
  end.

(** [isinstance(e, cls)] for exception classes; the hierarchy has depth 2. *)
Definition exn_isinstance (e cls : Exn) : bool :=
  bool_decide (e = cls) || bool_decide (exn_base e = Some cls).

(** [except (c1, c2, ...)]: does the clause catch [e]? *)
Definition except_clause (classes : list Exn) (e : Exn) : bool :=
  existsb (exn_isinstance e) classes.

Inductive Res (A : Type) : Type :=
  | Ok (a : A)
  | Raise (e : Exn).
Arguments Ok {A} a.
Arguments Raise {A} e.

Definition is_ok {A} (r : Res A) : bool :=
  match r with Ok _ => true | Raise _ => false end.

(** Unicode text is a sequence of code points, a byte string a sequence of
    bytes. *)
Abbreviation Text := (list N).
Abbreviation Bytes := (list byte).

#[global] Instance byte_eq_decision : EqDecision byte := byte_eq_dec.

(** The values handed to [encode], [decode] and [write]: unicode text, a
    byte string, [None], or a tuple (which the [%] of a format string takes
    for its list of arguments). *)
#[warnings="-register-all"]
Inductive PyVal : Type :=
  | PyUnicode (u : Text)
  | PyStr (b : Bytes)
  | PyNone
  | PyTuple (items : list PyVal).

(** [isinstance(s, unicode)] *)
Definition is_unicode (v : PyVal) : bool :=
  match v with PyUnicode _ => true | _ => false end.

(** ** Codecs with the "replace" error policy

    [s.encode(enc, "replace")] and [s.decode(enc, "replace")] belong to the
    Python runtime.  A stateless codec is given by what it does to one
    character and at the head of a byte string. *)
Record Codec : Type := {
  (** bytes of a character, [None] when the codec cannot represent it *)
  encode_char : N -> option Bytes;
  (** what the "replace" handler emits for an unrepresentable character
      (the codec's bytes for "?") *)
  replacement : Bytes;
  (** decoding at the head of a non-empty input: the character read
      ([None] when malformed) and how many bytes after the first are
      consumed with it *)
  decode_prefix : Bytes → option N * nat
}.

(** U+FFFD, which the "replace" handler of a decoder puts for malformed
    input. *)
Definition REPLACEMENT_CHARACTER : N := 65533%N.

Definition codec_encode (c : Codec) (s : Text) : Bytes :=
  flat_map (fun ch => match encode_char c ch with
                      | Some bs => bs
                      | None => replacement c
                      end) s.

Fixpoint codec_decode_fuel (c : Codec) (fuel : nat) (bs : Bytes) : Text :=
  match fuel, bs with
  | O, _ | _, [] => []
  | S fuel', _ :: tl =>
      let '(och, n) := decode_prefix c bs in
      default REPLACEMENT_CHARACTER och :: codec_decode_fuel c fuel' (drop n tl)
  end.




(** The codecs of the runtime that are not of this kind are known by what
    they return or raise on a whole input under the "replace" policy: the
    codecs [idna] and [undefined], for one, reject the policy or every
    input with a [UnicodeError]. *)
Record OtherCodec : Type := {
  other_encode : Text → Res Bytes;
  other_decode : Bytes → Res Text
}.

(** ** The collaborators outside this module *)

(** File objects other than [None] and [dummy.Dummy()] are known by a
    handle; what their methods do is decided outside. *)
Abbreviation Handle := nat.

(** The runtime, the operating system and the modules [i18n] and [os] as
    this module uses them.  [os.makedirs] answers [false] when it raises
    (its error is [os.error], that is [OSError]); [file(name, "wb")] answers
    [None] when it raises (its error is [IOError]).  The methods of a file
    object answer the exception they raise, if any. *)
Class Env : Type := {
  World : Type;
  (** the builtin [_] installed by [i18n] *)
  gettext : string → string;
  i18n_default_encoding : string;
  (** the encodings whose codec works character by character and honours
      the "replace" policy *)
  codecs_lookup : string → option Codec;
  (** the encodings that [codecs_lookup] does not answer and the runtime
      knows all the same *)
  codecs_other : string → option OtherCodec;
  os_linesep : Text;
  os_path_expanduser : string → string;
  os_path_dirname : string → string;
  os_path_isdir : string → World → bool;
  os_makedirs : string → World → bool * World;
  file_wb : string → World → option Handle * World;
  sys_stdout : Handle;
  stream_write : Handle → Bytes → World → option Exn * World;
  stream_flush : Handle → World → option Exn * World;
  stream_close : Handle → World → option Exn * World
}.

(** ** The logger object *)

(** What [self.fd] can hold: [None], a [dummy.Dummy()] or a file object. *)
Inductive PyFile : Type :=
  | FdNone
  | FdDummy
  | FdStream (h : Handle).

#[global] Instance PyFile_eq_dec : EqDecision PyFile.
Proof. solve_decision. Defined.

(** The three attributes that [init_fileoutput] assigns. *)
Record FileOutput : Type := {
  filename : option string;
  close_fd : bool;
  fd : PyFile
}.

(** The attributes of a [Logger].  [fileoutput] is [None] as long as
    [init_fileoutput] has not run: [__init__] does not assign [filename],
    [close_fd] and [fd], and [flush] asks [hasattr(self, "fd")]. *)
Record Logger : Type := {
  logparts : option (list string);
  logspaces : gmap string Text;
  max_indent : Z;
  number : Z;
  errors : Z;
  errors_printed : Z;
  warnings : Z;
  warnings_printed : Z;
  output_encoding : string;
  fileoutput : option FileOutput
}.

Definition set_logspaces (f : gmap string Text → gmap string Text) (l : Logger) : Logger :=
  {| logparts := logparts l; logspaces := f (logspaces l);
     max_indent := max_indent l; number := number l; errors := errors l;
     errors_printed := errors_printed l; warnings := warnings l;
     warnings_printed := warnings_printed l;
     output_encoding := output_encoding l; fileoutput := fileoutput l |}.

Definition set_max_indent (f : Z → Z) (l : Logger) : Logger :=
  {| logparts := logparts l; logspaces := logspaces l;
     max_indent := f (max_indent l); number := number l; errors := errors l;
     errors_printed := errors_printed l; warnings := warnings l;
     warnings_printed := warnings_printed l;
     output_encoding := output_encoding l; fileoutput := fileoutput l |}.

Definition set_number (f : Z → Z) (l : Logger) : Logger :=
  {| logparts := logparts l; logspaces := logspaces l;
     max_indent := max_indent l; number := f (number l); errors := errors l;
     errors_printed := errors_printed l; warnings := warnings l;
     warnings_printed := warnings_printed l;
     output_encoding := output_encoding l; fileoutput := fileoutput l |}.

Definition set_errors (f : Z → Z) (l : Logger) : Logger :=
  {| logparts := logparts l; logspaces := logspaces l;
     max_indent := max_indent l; number := number l; errors := f (errors l);
     errors_printed := errors_printed l; warnings := warnings l;
     warnings_printed := warnings_printed l;
     output_encoding := output_encoding l; fileoutput := fileoutput l |}.

Definition set_errors_printed (f : Z → Z) (l : Logger) : Logger :=
  {| logparts := logparts l; logspaces := logspaces l;
     max_indent := max_indent l; number := number l; errors := errors l;
     errors_printed := f (errors_printed l); warnings := warnings l;
     warnings_printed := warnings_printed l;
     output_encoding := output_encoding l; fileoutput := fileoutput l |}.

Definition set_warnings (f : Z → Z) (l : Logger) : Logger :=
  {| logparts := logparts l; logspaces := logspaces l;
     max_indent := max_indent l; number := number l; errors := errors l;
     errors_printed := errors_printed l; warnings := f (warnings l);
     warnings_printed := warnings_printed l;
     output_encoding := output_encoding l; fileoutput := fileoutput l |}.

Definition set_warnings_printed (f : Z → Z) (l : Logger) : Logger :=
  {| logparts := logparts l; logspaces := logspaces l;
     max_indent := max_indent l; number := number l; errors := errors l;
     errors_printed := errors_printed l; warnings := warnings l;
     warnings_printed := f (warnings_printed l);
     output_encoding := output_encoding l; fileoutput := fileoutput l |}.

Definition set_fileoutput (f : option FileOutput → option FileOutput) (l : Logger) : Logger :=
  {| logparts := logparts l; logspaces := logspaces l;
     max_indent := max_indent l; number := number l; errors := errors l;
     errors_printed := errors_printed l; warnings := warnings l;
     warnings_printed := warnings_printed l;
     output_encoding := output_encoding l; fileoutput := f (fileoutput l) |}.

Definition set_filename (v : option string) (fo : FileOutput) : FileOutput :=
  {| filename := v; close_fd := close_fd fo; fd := fd fo |}.
Definition set_close_fd (v : bool) (fo : FileOutput) : FileOutput :=
  {| filename := filename fo; close_fd := v; fd := fd fo |}.
Definition set_fd (v : PyFile) (fo : FileOutput) : FileOutput :=
  {| filename := filename fo; close_fd := close_fd fo; fd := v |}.

(** The five accounting attributes, in the order [__init__] assigns them:
    [number], [errors], [errors_printed], [warnings], [warnings_printed]. *)
Definition counters (l : Logger) : Z * Z * Z * Z * Z :=
  (number l, errors l, errors_printed l, warnings l, warnings_printed l).

(** The keyword arguments [**args] the constructors look at.
    [arg_fileoutput] is the truth value of [args.get('fileoutput')]. *)
Record Args : Type := {
  arg_parts : option (list string);
  arg_encoding : option string;
  arg_fileoutput : bool;
  arg_filename : option string;
  arg_fd : option PyFile
}.

(** A checked URL as this module reads it: [url_data.valid] and
    [url_data.warnings]. *)
Module UrlData.
Record t : Type := { valid : bool; warnings : list string }.
End UrlData.

(** ** Calls to the outside, as they are observed *)
Inductive Event : Type :=
  (** [log.warn(LOG_CHECK, "Could not open file %r for writing: ...")] *)
  | EvWarnCouldNotOpen (name : string)
  (** [log.warn(LOG_CHECK, "writing to unitialized or closed file")] *)
  | EvWarnClosedFile
  | EvMakedirs (path : string)
  | EvFile (name : string)
  | EvWrite (h : Handle) (data : Bytes)
  | EvFlush (h : Handle)
  | EvClose (h : Handle).

#[global] Instance Event_eq_dec : EqDecision Event.
Proof. solve_decision. Defined.

(** ** The monad of the methods *)

Section logger.
Context `{!Env}.

(** The logger object, the world outside and the calls made so far, the
    oldest first. *)
Record Machine : Type := {
  logger : Logger;
  world : World;
  trace : list Event
}.

Definition M (A : Type) : Type := Machine → Res A * Machine.

Definition ret {A} (a : A) : M A := fun m => (Ok a, m).
Definition raise {A} (e : Exn) : M A := fun m => (Raise e, m).
Definition bind {A B} (c : M A) (k : A → M B) : M B :=
  fun m => match c m with
           | (Ok a, m') => k a m'
           | (Raise e, m') => (Raise e, m')
           end.

(** [try: body except classes: handler]; other exceptions pass. *)
Definition try_except {A} (body : M A) (classes : list Exn) (handler : M A) : M A :=
  fun m => match body m with
           | (Ok a, m') => (Ok a, m')
           | (Raise e, m') =>
               if except_clause classes e then handler m' else (Raise e, m')
           end.

Definition lift {A} (r : Res A) : M A := fun m => (r, m).

Definition get_logger : M Logger := fun m => (Ok (logger m), m).
Definition modify_logger (f : Logger → Logger) : M unit :=
  fun m => (Ok tt, {| logger := f (logger m); world := world m; trace := trace m |}).

Definition emit (e : Event) : M unit :=
  fun m => (Ok tt, {| logger := logger m; world := world m; trace := trace m ++ [e] |}).

(** A call to the outside that returns a value. *)
Definition ask {A} (f : World → A * World) : M A :=
  fun m => let '(a, w) := f (world m) in
           (Ok a, {| logger := logger m; world := w; trace := trace m |}).

(** A method call on a file object: it returns or raises. *)
Definition call (f : World → option Exn * World) : M unit :=
  fun m => let '(r, w) := f (world m) in
           (match r with None => Ok tt | Some e => Raise e end,
            {| logger := logger m; world := w; trace := trace m |}).
End logger.

Declare Scope logger_scope.
Delimit Scope logger_scope with logger.
Notation "'let!' x ':=' c 'in' k" := (bind c (fun x => k))
  (at level 10, x name, c at level 100, k at level 200) : logger_scope.
Notation "c '>>' k" := (bind c (fun _ => k))
  (at level 100, k at level 200, right associativity) : logger_scope.
Local Open Scope logger_scope.

(** ** The field registry *)


(** The module-level dictionary [Fields]; the [_] around its values is the
    identity there ([_ = lambda x: x], deleted again after the dictionary). *)
Definition Fields_items : list (string * string) :=
  [ ("realurl", "Real URL");
    ("cachekey", "Cache key");
    ("result", "Result");
    ("base", "Base");
    ("name", "Name");
    ("parenturl", "Parent URL");
    ("extern", "Extern");
    ("info", "Info");
    ("warning", "Warning");
    ("dltime", "D/L Time");
    ("dlsize", "D/L Size");
    ("checktime", "Check Time");
    ("url", "URL") ].

Definition Fields : gmap string string := list_to_map Fields_items.

(** [Fields.keys()], in the order the map enumerates them (a Python 2
    dictionary promises no order either). *)
Definition Fields_keys : list string := (map_to_list Fields).*1.

(** The thirteen field identifiers, as a list. *)
Definition field_names : list string :=
  ["realurl"; "cachekey"; "result"; "base"; "name"; "parenturl"; "extern";
   "info"; "warning"; "dltime"; "dlsize"; "checktime"; "url"].

(** [len(s)] of a byte string *)
Definition len (s : string) : Z := Z.of_nat (String.length s).

(** [u" " * n]: [n] spaces, none when [n] is not positive. *)
Definition spaces_of (n : Z) : Text := replicate (Z.to_nat n) 32%N.

(** The part names [start_output] goes through: all the fields when
    [logparts] is [None], the given parts otherwise. *)
Definition selection (l : Logger) : list string :=
  match logparts l with
  | None => Fields_keys
  | Some ps => ps
  end.

(** [max(xs)]: a [ValueError] on an empty sequence. *)
Definition py_max (xs : list Z) : Res Z :=
  match xs with
  | [] => Raise ValueError
  | x :: xs' => Ok (fold_left Z.max xs' x)
  end.

(** ** The methods of [Logger] *)

Definition res_bind {A B} (r : Res A) (k : A → Res B) : Res B :=
  match r with Ok a => k a | Raise e => Raise e end.

(** The values of a generator expression [(f(x) for x in xs)], up to the
    first exception. *)
Fixpoint res_map {A B} (f : A → Res B) (xs : list A) : Res (list B) :=
  match xs with
  | [] => Ok []
  | x :: xs' => res_bind (f x) (fun y => res_bind (res_map f xs') (fun ys => Ok (y :: ys)))
  end.

(** The format-specific part of a logger: the [log_url] of the subclass. *)
Class Renderer `{!Env} : Type := {
  log_url : UrlData.t → M unit
}.

Section methods.
Context `{!Env}.

(** [Logger.__init__(self, **args)] *)
Definition __init__ (args : Args) : Logger :=
  {| logparts :=
       match arg_parts args with
       | Some parts => if negb (bool_decide ("all" ∈ parts)) then Some parts else None
       | None => None
       end;
     logspaces := ∅;
     max_indent := 0;
     number := 0;
     errors := 0;
     errors_printed := 0;
     warnings := 0;
     warnings_printed := 0;
     output_encoding := default i18n_default_encoding (arg_encoding args);
     fileoutput := None |}.

(** Reading [self.filename], [self.close_fd] or [self.fd]: an
    [AttributeError] while they are not assigned. *)
Definition get_fileoutput : M FileOutput :=
  let! l := get_logger in
  match fileoutput l with
  | Some fo => ret fo
  | None => raise AttributeError
  end.

Definition modify_fileoutput (f : FileOutput → FileOutput) : M unit :=
  modify_logger (set_fileoutput (fmap f)).

(** [Logger.init_fileoutput(self, args)] *)
Definition init_fileoutput (args : Args) : M unit :=
  modify_logger (set_fileoutput (fun _ =>
    Some {| filename := None; close_fd := false; fd := FdNone |})) >>
  if arg_fileoutput args then
    match arg_filename args with
    | Some name => modify_fileoutput (set_filename (Some (os_path_expanduser name)))
    | None => raise KeyError
    end
  else
    match arg_fd args with
    | Some f => modify_fileoutput (set_fd f)
    | None => modify_fileoutput (set_fd (FdStream sys_stdout))
    end.

(** [os.makedirs(path)] *)
Definition makedirs (path : string) : M unit :=
  emit (EvMakedirs path) >>
  let! ok := ask (os_makedirs path) in
  if ok : bool then ret tt else raise OSError.

(** [file(name, "wb")] *)
Definition file (name : string) : M Handle :=
  emit (EvFile name) >>
  let! r := ask (file_wb name) in
  match r with
  | Some h => ret h
  | None => raise IOError
  end.

(** [Logger.start_fileoutput(self)] *)
Definition start_fileoutput : M unit :=
  let! fo := get_fileoutput in
  match filename fo with
  | None => raise AttributeError (* os.path.dirname(None) *)
  | Some name =>
      let path := os_path_dirname name in
      try_except
        ((if bool_decide (path ≠ "") then
            let! isdir := ask (fun w => (os_path_isdir path w, w)) in
            if negb isdir then makedirs path else ret tt
          else ret tt) >>
         let! h := file name in
         modify_fileoutput (set_fd (FdStream h)) >>
         modify_fileoutput (set_close_fd true))
        [IOError]
        (emit (EvWarnCouldNotOpen name) >>
         modify_fileoutput (set_fd FdDummy)) >>
      modify_fileoutput (set_filename None)
  end.

(** Modelled from the spec: the class [Dummy] of [linkcheck.dummy], whose
    source is not at hand.  The sink "degrades to a silent discard target":
    any method called on a [dummy.Dummy()] returns and does nothing. *)
Definition Dummy_call : M unit := ret tt.

(** [self.fd.flush()] *)
Definition fd_flush (f : PyFile) : M unit :=
  match f with
  | FdNone => raise AttributeError
  | FdDummy => Dummy_call
  | FdStream h => emit (EvFlush h) >> call (stream_flush h)
  end.

(** [self.fd.close()] *)
Definition fd_close (f : PyFile) : M unit :=
  match f with
  | FdNone => raise AttributeError
  | FdDummy => Dummy_call
  | FdStream h => emit (EvClose h) >> call (stream_close h)
  end.

(** [self.fd.write(data)] *)
Definition fd_write (f : PyFile) (data : Bytes) : M unit :=
  match f with
  | FdNone => raise AttributeError
  | FdDummy => Dummy_call
  | FdStream h => emit (EvWrite h data) >> call (stream_write h data)
  end.

(** [Logger.flush(self)] *)
Definition flush : M unit :=
  let! l := get_logger in
  match fileoutput l with
  | Some fo => try_except (fd_flush (fd fo)) [IOError; AttributeError] (ret tt)
  | None => ret tt
  end.

(** [Logger.close_fileoutput(self)] *)
Definition close_fileoutput : M unit :=
  let! fo := get_fileoutput in
  if bool_decide (fd fo ≠ FdNone) then
    flush >>
    (if close_fd fo then fd_close (fd fo) else ret tt) >>
    modify_fileoutput (set_fd FdNone)
  else ret tt.

(** [s.encode(encoding, "replace")] of unicode text: a [LookupError] for
    an encoding the runtime does not know. *)
Definition unicode_encode (encoding : string) (u : Text) : Res Bytes :=
  match codecs_lookup encoding with
  | Some c => Ok (codec_encode c u)
  | None =>
      match codecs_other encoding with
      | Some c => other_encode c u
      | None => Raise LookupError
      end
  end.


(** ["tried to encode non-unicode string %r" % s]: a tuple is taken for
    the arguments of the format, which has one place, so a tuple that has
    not exactly one item raises [TypeError]. *)
Definition format_message (s : PyVal) : Res unit :=
  match s with
  | PyTuple items => if bool_decide (length items = 1%nat) then Ok tt else Raise TypeError
  | _ => Ok tt
  end.

(** [Logger.encode(self, s)] *)
Definition encode (l : Logger) (s : PyVal) : Res Bytes :=
  match s with
  | PyUnicode u => unicode_encode (output_encoding l) u
  | _ => res_bind (format_message s) (fun _ => Raise ValueError)
  end.


(** [Logger.write(self, s, **args)]; the keyword arguments, handed on to
    [self.fd.write], are left out. *)
Definition write (s : PyVal) : M unit :=
  let! fo := get_fileoutput in
  (if bool_decide (filename fo ≠ None) then start_fileoutput else ret tt) >>
  let! fo := get_fileoutput in
  if bool_decide (fd fo = FdNone) then
    emit EvWarnClosedFile
  else
    let! l := get_logger in
    let! data := lift (encode l s) in
    fd_write (fd fo) data.

(** [Logger.writeln(self, s=u"", **args)] *)
Definition writeln (s : PyVal) : M unit :=
  write s >> write (PyUnicode os_linesep).

(** [Logger.comment(self, s, **args)] *)
Definition comment (s : PyVal) : M unit := writeln s.

(** [Logger.has_part(self, name)] *)
Definition has_part (l : Logger) (name : string) : bool :=
  match logparts l with
  | None => true
  | Some parts => bool_decide (name ∈ parts)
  end.

(** [Logger.part(self, name)] *)
Definition part (name : string) : Res string :=
  match Fields !! name with
  | Some label => Ok (gettext label)
  | None => Raise KeyError
  end.

(** [Logger.spaces(self, name)] *)
Definition spaces (l : Logger) (name : string) : Res Text :=
  match logspaces l !! name with
  | Some s => Ok s
  | None => Raise KeyError
  end.

(** The loop [for key in parts] of [start_output]. *)
Fixpoint start_output_loop (parts : list string) : M unit :=
  match parts with
  | [] => ret tt
  | key :: rest =>
      let! l := get_logger in
      let! label := lift (part key) in
      let numspaces := max_indent l - len label in
      modify_logger (set_logspaces (insert key (spaces_of numspaces))) >>
      start_output_loop rest
  end.

(** [Logger.start_output(self)] *)
Definition start_output : M unit :=
  let! l := get_logger in
  let parts := match logparts l with
               | None => Fields_keys
               | Some ps => ps
               end in
  let! lens := lift (res_map (fun x => res_bind (part x) (fun v => Ok (len v))) parts) in
  let! mx := lift (py_max lens) in
  modify_logger (set_max_indent (fun _ => mx + 1)) >>
  start_output_loop parts.

(** [Logger.log_filter_url(self, url_data, do_print)] *)
Definition log_filter_url `{!Renderer} (url_data : UrlData.t) (do_print : bool) : M unit :=
  modify_logger (set_number (fun n => n + 1)) >>
  (if negb (UrlData.valid url_data) then
     modify_logger (set_errors (fun n => n + 1)) >>
     if do_print then modify_logger (set_errors_printed (fun n => n + 1))
     else ret tt
   else ret tt) >>
  let num_warnings := Z.of_nat (length (UrlData.warnings url_data)) in
  modify_logger (set_warnings (fun n => n + num_warnings)) >>
  if do_print then
    modify_logger (set_warnings_printed (fun n => n + num_warnings)) >>
    log_url url_data
  else ret tt.
End methods.

(** ** Sessions *)

(** The calls a driver makes on a logger. *)
Inductive Method : Type :=
  | InitFileoutput (args : Args)
  | StartFileoutput
  | CloseFileoutput
  | Write (s : PyVal)
  | Writeln (s : PyVal)
  | Comment (s : PyVal)
  | Flush
  | StartOutput
  | LogFilterUrl (url_data : UrlData.t) (do_print : bool).

Section sessions.
Context `{!Env} `{!Renderer}.

Definition invoke (c : Method) : M unit :=
  match c with
  | InitFileoutput args => init_fileoutput args
  | StartFileoutput => start_fileoutput
  | CloseFileoutput => close_fileoutput
  | Write s => write s
  | Writeln s => writeln s
  | Comment s => comment s
  | Flush => flush
  | StartOutput => start_output
  | LogFilterUrl u p => log_filter_url u p
  end.

(** A sequence of calls, each on the machine the one before left; a
    driver that catches an exception goes on with the same object. *)
Definition session (cs : list Method) (m : Machine) : Machine :=
  fold_left (fun m c => (invoke c m).2) cs m.

(** A logger as [__init__] leaves it, before any call. *)
Definition fresh (args : Args) (w : World) : Machine :=
  {| logger := __init__ args; world := w; trace := [] |}.

(** A renderer keeps the accounting when its [log_url] leaves the five
    counters as they are. *)
Definition keeps_accounting : Prop :=
  ∀ u m, counters (logger (log_url u m).2) = counters (logger m).

(** A computation that never changes the five counters. *)
Definition keeps_counters {A} (c : M A) : Prop :=
  ∀ m, counters (logger (c m).2) = counters (logger m).
End sessions.

(** The relations between the counters that the summary relies on. *)
Definition accounting_ok (l : Logger) : Prop :=
  0 ≤ errors_printed l ∧ errors_printed l ≤ errors l ∧ errors l ≤ number l ∧
  0 ≤ warnings_printed l ∧ warnings_printed l ≤ warnings l.

(** Each counter of [l2] is at least the one of [l1]. *)
Definition counters_le (l1 l2 : Logger) : Prop :=
  number l1 ≤ number l2 ∧ errors l1 ≤ errors l2 ∧
  errors_printed l1 ≤ errors_printed l2 ∧ warnings l1 ≤ warnings l2 ∧
  warnings_printed l1 ≤ warnings_printed l2.

(** The handles that [close] was called on, in order. *)
Definition closes (t : list Event) : list Handle :=
  flat_map (fun e => match e with EvClose h => [h] | _ => [] end) t.

(** The attempts to create a directory or a file, in order. *)
Definition openings (t : list Event) : list Event :=
  List.filter (fun e => match e with EvMakedirs _ | EvFile _ => true | _ => false end) t.

(** The logger has its file attributes, holds no file name and does not
    own its file object: the state [init_fileoutput] leaves when it is
    given a file object or falls back to [sys.stdout]. *)
Definition borrowed (l : Logger) : Prop :=
  ∃ fo, fileoutput l = Some fo ∧ filename fo = None ∧ close_fd fo = false.

(** The logger has its file attributes and holds no file name any more:
    the deferred opening is behind it, or was never asked for. *)
Definition settled (l : Logger) : Prop :=
  ∃ fo, fileoutput l = Some fo ∧ filename fo = None.

(** A borrowed state without a file object to call: a dummy or [None]. *)
Definition discarding (l : Logger) : Prop :=
  ∃ fo, fileoutput l = Some fo ∧ filename fo = None ∧ close_fd fo = false ∧
        (fd fo = FdDummy ∨ fd fo = FdNone).

(** The calls that use the file output of an initialised logger. *)
Definition uses_sink (c : Method) : bool :=
  match c with
  | InitFileoutput _ | LogFilterUrl _ _ => false
  | _ => true
  end.

(** Every call but a new [init_fileoutput]. *)
Definition after_init (c : Method) : bool :=
  match c with
  | InitFileoutput _ => false
  | _ => true
  end.

(** Is the call one to the per-record intake? *)
Definition is_intake (c : Method) : bool :=
  match c with LogFilterUrl _ _ => true | _ => false end.

(** What one call of [log_filter_url] adds to each counter, read off its
    body: one item, one error when the URL is not valid, the warnings of
    the URL, and the printed ones when [do_print] holds. *)
Definition increments (u : UrlData.t) (do_print : bool) : Z * Z * Z * Z * Z :=
  let w := Z.of_nat (length (UrlData.warnings u)) in
  (1,
   if UrlData.valid u then 0 else 1,
   if UrlData.valid u then 0 else if do_print then 1 else 0,
   w,
   if do_print then w else 0).

Definition add5 (a b : Z * Z * Z * Z * Z) : Z * Z * Z * Z * Z :=
  let '(a1, a2, a3, a4, a5) := a in
  let '(b1, b2, b3, b4, b5) := b in
  (a1 + b1, a2 + b2, a3 + b3, a4 + b4, a5 + b5).

(** A renderer keeps to a borrowed file object when its [log_url], called
    on a logger that borrows its file object, leaves it borrowed and closes
    nothing. *)
Definition keeps_borrowed `{!Env} `{!Renderer} : Prop :=
  ∀ u m, borrowed (logger m) →
         borrowed (logger (log_url u m).2) ∧
         closes (trace (log_url u m).2) = closes (trace m).

(** ** The base class as a renderer *)

(** Modelled from the spec: the decorator [notimplemented] of
    [linkcheck.decorators], whose source is not at hand.  "Invoking it on the
    base contract signals a not implemented fault": the decorated [log_url]
    of [Logger] raises [NotImplementedError] and does nothing else. *)
Definition Logger_log_url `{!Env} (url_data : UrlData.t) : M unit :=
  raise NotImplementedError.

Definition base_renderer `{!Env} : Renderer := {| log_url := Logger_log_url |}.

(** A subclass whose [log_url] writes a line, "ok" or "error", and
    flushes. *)
Definition line_renderer `{!Env} : Renderer :=
  {| log_url := fun u =>
       writeln (PyUnicode (if UrlData.valid u then [111; 107]%N
                           else [101; 114; 114; 111; 114]%N)) >>
       flush |}.

(** A subclass whose [log_url] writes nothing and returns. *)
Definition silent_renderer `{!Env} : Renderer := {| log_url := fun _ => ret tt |}.

(** ** A small concrete environment

    Single-byte codecs, a disk that knows its directories and may be
    read-only, and file objects whose methods never raise. *)

(** A codec whose characters are the code points below [limit], one byte
    each ([limit] is 128 for ASCII, 256 for ISO 8859-1). *)
Definition charmap_encode (limit : N) (ch : N) : option Bytes :=
  if (ch <? limit)%N then (fun b => [b]) <$> Byte.of_N ch else None.

Definition charmap_decode (limit : N) (bs : Bytes) : option N * nat :=
  match bs with
  | b :: _ => (if (Byte.to_N b <? limit)%N then Some (Byte.to_N b) else None, 0%nat)
  | [] => (None, 0%nat)
  end.

Definition charmap_codec (limit : N) : Codec :=
  {| encode_char := charmap_encode limit;
     replacement := ["?"%byte];
     decode_prefix := charmap_decode limit |}.

Definition ascii_codec : Codec := charmap_codec 128.
Definition latin_1_codec : Codec := charmap_codec 256.

(** A codec that, like [idna], accepts the "strict" policy only: under
    "replace" it raises [UnicodeError] on every input. *)
Definition strict_only_codec : OtherCodec :=
  {| other_encode := fun _ => Raise UnicodeError;
     other_decode := fun _ => Raise UnicodeError |}.

Fixpoint drop_while {A} (p : A → bool) (xs : list A) : list A :=
  match xs with
  | [] => []
  | x :: xs' => if p x then drop_while p xs' else xs
  end.

Definition is_slash (a : ascii) : bool := bool_decide (a = "/"%char).

(** [posixpath.dirname]: everything up to the last slash, without the
    trailing slashes unless there is nothing else. *)
Definition posix_dirname (p : string) : string :=
  let rev_head := drop_while (fun a => negb (is_slash a)) (reverse (String.list_ascii_of_string p)) in
  let stripped := drop_while is_slash rev_head in
  String.string_of_list_ascii (reverse (match stripped with [] => rev_head | _ => stripped end)).

Record Disk : Type := {
  dirs : list string;
  read_only : bool;
  next_handle : Handle
}.

Definition disk_makedirs (path : string) (d : Disk) : bool * Disk :=
  if read_only d then (false, d)
  else (true, {| dirs := path :: dirs d; read_only := false; next_handle := next_handle d |}).

Definition disk_file_wb (name : string) (d : Disk) : option Handle * Disk :=
  let path := posix_dirname name in
  if negb (read_only d) && (bool_decide (path = "") || bool_decide (path ∈ dirs d)) then
    (Some (next_handle d),
     {| dirs := dirs d; read_only := false; next_handle := S (next_handle d) |})
  else (None, d).

Definition posix_env : Env :=
  {| World := Disk;
     gettext := fun s => s;
     i18n_default_encoding := "ascii";
     codecs_lookup := fun enc =>
       if bool_decide (enc = "ascii") then Some ascii_codec
       else if bool_decide (enc = "iso-8859-1") then Some latin_1_codec
       else None;
     codecs_other := fun enc =>
       if bool_decide (enc = "idna") then Some strict_only_codec else None;
     os_linesep := [10%N];
     os_path_expanduser := fun p => p;
     os_path_dirname := posix_dirname;
     os_path_isdir := fun p d => bool_decide (p ∈ dirs d);
     os_makedirs := disk_makedirs;
     file_wb := disk_file_wb;
     sys_stdout := 1%nat;
     stream_write := fun _ _ d => (None, d);
     stream_flush := fun _ d => (None, d);
     stream_close := fun _ d => (None, d) |}.





(** A disk with the root directory only; file handles start after the
    standard streams. *)
Definition empty_disk (ro : bool) : Disk :=
  {| dirs := ["/"]; read_only := ro; next_handle := 3%nat |}.

Definition no_args : Args :=
  {| arg_parts := None; arg_encoding := None; arg_fileoutput := false;
     arg_filename := None; arg_fd := None |}.

Definition file_args (name : string) : Args :=
  {| arg_parts := None; arg_encoding := None; arg_fileoutput := true;
     arg_filename := Some name; arg_fd := None |}.

(** A logger told to write to [name], on a disk that is read-only or
    not, after [__init__] and [init_fileoutput]. *)
Definition file_logger (name : string) (ro : bool) : @Machine posix_env :=
  (@init_fileoutput posix_env (file_args name)
     (@fresh posix_env no_args (empty_disk ro))).2.

(** The text "hi". *)
Definition hi : PyVal := PyUnicode [104; 105]%N.

(** A valid URL without warnings and an invalid one with two. *)
Definition ok_link : UrlData.t :=
  {| UrlData.valid := true; UrlData.warnings := [] |}.
Definition broken_link : UrlData.t :=
  {| UrlData.valid := false; UrlData.warnings := ["w1"; "w2"] |}.

(** The arguments that select the given parts, and the logger made from
    them. *)
Definition parts_args (ps : list string) : Args :=
  {| arg_parts := Some ps; arg_encoding := None; arg_fileoutput := false;
     arg_filename := None; arg_fd := None |}.

Definition parts_logger (ps : list string) : @Machine posix_env :=
  @fresh posix_env (parts_args ps) (empty_disk false).

(** The arguments that hand the logger a file object. *)
Definition fd_args (h : Handle) : Args :=
  {| arg_parts := None; arg_encoding := None; arg_fileoutput := false;
     arg_filename := None; arg_fd := Some (FdStream h) |}.

(** A logger given the file object [h], after [__init__] and
    [init_fileoutput]. *)
Definition fd_logger (h : Handle) : @Machine posix_env :=
  (@init_fileoutput posix_env (fd_args h)
     (@fresh posix_env no_args (empty_disk false))).2.

(** The small environment with file objects that their owner has closed:
    every method of theirs raises [ValueError], as Python's files do. *)
Definition closed_stream_env : Env :=
  {| World := Disk;
     gettext := fun s => s;
     i18n_default_encoding := "ascii";
     codecs_lookup := @codecs_lookup posix_env;
     codecs_other := @codecs_other posix_env;
     os_linesep := [10%N];
     os_path_expanduser := fun p => p;
     os_path_dirname := posix_dirname;
     os_path_isdir := fun p d => bool_decide (p ∈ dirs d);
     os_makedirs := disk_makedirs;
     file_wb := disk_file_wb;
     sys_stdout := 1%nat;
     stream_write := fun _ _ d => (Some ValueError, d);
     stream_flush := fun _ d => (Some ValueError, d);
     stream_close := fun _ d => (Some ValueError, d) |}.

(** A logger given the closed file object [h]. *)
Definition closed_fd_logger (h : Handle) : @Machine closed_stream_env :=
  (@init_fileoutput closed_stream_env (fd_args h)
     (@fresh closed_stream_env no_args (empty_disk false))).2.

(** The calls that write nothing. *)
Definition writes_nothing (c : Method) : bool :=
  match c with
  | Flush | CloseFileoutput | StartOutput => true
  | _ => false
  end.

(** ** What a session has taken in *)

(** The calls of [log_filter_url] in a sequence of calls, in order: the URL
    and whether it was to be printed. *)
Definition intakes (cs : list Method) : list (UrlData.t * bool) :=
  omap (fun c => match c with
                 | LogFilterUrl u p => Some (u, p)
                 | _ => None
                 end) cs.

Definition is_invalid (x : UrlData.t * bool) : bool := negb (UrlData.valid x.1).

Definition is_invalid_printed (x : UrlData.t * bool) : bool :=
  negb (UrlData.valid x.1) && x.2.

Definition num_warnings (x : UrlData.t * bool) : nat :=
  length (UrlData.warnings x.1).

Definition num_warnings_printed (x : UrlData.t * bool) : nat :=
  if x.2 then length (UrlData.warnings x.1) else 0%nat.

(** The URLs taken in, the invalid ones, the invalid ones printed, the
    warnings and the warnings printed. *)
Definition totals (xs : list (UrlData.t * bool)) : Z * Z * Z * Z * Z :=
  (Z.of_nat (length xs),
   Z.of_nat (length (List.filter is_invalid xs)),
   Z.of_nat (length (List.filter is_invalid_printed xs)),
   Z.of_nat (sum_list_with num_warnings xs),
   Z.of_nat (sum_list_with num_warnings_printed xs)).

(** The logger apart from the two attributes [start_output] assigns. *)
Definition without_alignment (l : Logger) : Logger :=
  set_logspaces (fun _ => ∅) (set_max_indent (fun _ => 0) l).

Example posix_dirname_file : posix_dirname "/var/log/lc/out.txt" = "/var/log/lc".
Proof. reflexivity. Qed.

Example posix_dirname_plain : posix_dirname "out.txt" = "".
Proof. reflexivity. Qed.

Example posix_dirname_root : posix_dirname "//out.txt" = "//".
Proof. reflexivity. Qed.

(** * Properties *)

(** ** Accounting *)

Section accounting.
Context `{!Env} `{!Renderer}.

(** Without printing, [log_filter_url] returns and touches the counters
    only. *)
Lemma log_filter_url_quiet u m :
  ∃ l', log_filter_url u false m =
          (Ok tt, {| logger := l'; world := world m; trace := trace m |}) ∧
        counters l' = add5 (counters (logger m)) (increments u false).
Proof.
  unfold log_filter_url, bind, modify_logger, ret, increments, counters.
  destruct u as [[] ws]; simpl; eexists; split; try reflexivity;
    simpl; repeat f_equal; lia.
Qed.

Lemma log_filter_url_counters u p m :
  keeps_accounting →
  counters (logger (log_filter_url u p m).2) =
  add5 (counters (logger m)) (increments u p).
Proof.
  intros Hkeep. destruct p.
  - unfold log_filter_url, bind, modify_logger, ret, increments.
    destruct u as [[] ws]; simpl;
      match goal with
      | |- context [log_url ?u ?m1] =>
          pose proof (Hkeep u m1) as Hk; destruct (log_url u m1) as [[] m2]
      end; simpl in *; rewrite Hk; unfold counters; simpl;
      repeat f_equal; lia.
  - destruct (log_filter_url_quiet u m) as (l' & -> & Hl'). exact Hl'.
Qed.
End accounting.

(** ** Methods that leave the accounting alone *)

Section frame.
Context `{!Env}.

Lemma keeps_ret {A} (a : A) : keeps_counters (ret a).
Proof. intros m. reflexivity. Qed.

Lemma keeps_raise {A} e : keeps_counters (@raise _ A e).
Proof. intros m. reflexivity. Qed.

Lemma keeps_lift {A} (r : Res A) : keeps_counters (lift r).
Proof. intros m. reflexivity. Qed.

Lemma keeps_get_logger : keeps_counters get_logger.
Proof. intros m. reflexivity. Qed.

Lemma keeps_emit e : keeps_counters (emit e).
Proof. intros m. reflexivity. Qed.

Lemma keeps_ask {A} (f : World → A * World) : keeps_counters (ask f).
Proof. intros m. unfold ask. destruct (f (world m)). reflexivity. Qed.

Lemma keeps_call f : keeps_counters (call f).
Proof. intros m. unfold call. destruct (f (world m)). reflexivity. Qed.

Lemma keeps_modify_logger f :
  (∀ l, counters (f l) = counters l) → keeps_counters (modify_logger f).
Proof. intros Hf m. apply Hf. Qed.

Lemma keeps_bind {A B} (c : M A) (k : A → M B) :
  keeps_counters c → (∀ a, keeps_counters (k a)) → keeps_counters (bind c k).
Proof.
  intros Hc Hk m. unfold bind. specialize (Hc m).
  destruct (c m) as [[a|e] m']; simpl in *.
  - rewrite Hk. exact Hc.
  - exact Hc.
Qed.

Lemma keeps_try_except {A} (body handler : M A) classes :
  keeps_counters body → keeps_counters handler →
  keeps_counters (try_except body classes handler).
Proof.
  intros Hb Hh m. unfold try_except. specialize (Hb m).
  destruct (body m) as [[a|e] m']; simpl in *; [exact Hb|].
  destruct (except_clause classes e); simpl; [|exact Hb].
  rewrite Hh. exact Hb.
Qed.

Lemma keeps_if {A} (b : bool) (c1 c2 : M A) :
  keeps_counters c1 → keeps_counters c2 → keeps_counters (if b then c1 else c2).
Proof. destruct b; auto. Qed.
End frame.

Create HintDb frame.
#[local] Hint Resolve keeps_ret keeps_raise keeps_lift keeps_get_logger keeps_emit
  keeps_ask keeps_call keeps_if : frame.

(** Takes a computation apart along [bind], [try_except] and [match]. *)
Ltac frame :=
  repeat first
    [ progress auto with frame
    | apply keeps_bind; [|intros ?]
    | apply keeps_try_except
    | apply keeps_modify_logger; intros ?; reflexivity
    | match goal with
      | |- keeps_counters (match ?x with _ => _ end) => destruct x
      end ].

Section frame_methods.
Context `{!Env}.

Lemma keeps_modify_fileoutput f : keeps_counters (modify_fileoutput f).
Proof. unfold modify_fileoutput. frame. Qed.

Lemma keeps_get_fileoutput : keeps_counters get_fileoutput.
Proof. unfold get_fileoutput. frame. Qed.

Hint Resolve keeps_modify_fileoutput keeps_get_fileoutput : frame.

Lemma keeps_init_fileoutput args : keeps_counters (init_fileoutput args).
Proof. unfold init_fileoutput. frame. Qed.

Lemma keeps_start_fileoutput : keeps_counters start_fileoutput.
Proof. unfold start_fileoutput, makedirs, file. frame. Qed.

Lemma keeps_flush : keeps_counters flush.
Proof. unfold flush, fd_flush, Dummy_call. frame. Qed.

Hint Resolve keeps_start_fileoutput keeps_flush : frame.

Lemma keeps_close_fileoutput : keeps_counters close_fileoutput.
Proof. unfold close_fileoutput, fd_close, Dummy_call. frame. Qed.

Lemma keeps_write s : keeps_counters (write s).
Proof. unfold write, fd_write, Dummy_call. frame. Qed.

Hint Resolve keeps_write : frame.

Lemma keeps_writeln s : keeps_counters (writeln s).
Proof. unfold writeln. frame. Qed.

Lemma keeps_start_output_loop parts : keeps_counters (start_output_loop parts).
Proof. induction parts as [|key rest IH]; simpl; frame. Qed.

Lemma keeps_start_output : keeps_counters start_output.
Proof. unfold start_output. pose proof keeps_start_output_loop. frame. Qed.

(** Every method other than [log_filter_url] leaves the counters alone,
    whatever it returns or raises. *)
Lemma invoke_keeps_counters `{!Renderer} c :
  is_intake c = false → keeps_counters (invoke c).
Proof.
  destruct c; simpl; intros Hc; try discriminate;
    auto using keeps_init_fileoutput, keeps_start_fileoutput,
      keeps_close_fileoutput, keeps_write, keeps_writeln, keeps_flush,
      keeps_start_output.
Qed.
End frame_methods.

(** ** The counters along a session *)

Section counting.
Context `{!Env} `{!Renderer}.

Lemma invoke_counters c m :
  keeps_accounting →
  counters (logger (invoke c m).2) =
  match c with
  | LogFilterUrl u p => add5 (counters (logger m)) (increments u p)
  | _ => counters (logger m)
  end.
Proof.
  intros Hkeep. destruct c;
    try (match goal with
         | |- context [invoke ?c _] => exact (invoke_keeps_counters c eq_refl m)
         end).
  apply log_filter_url_counters, Hkeep.
Qed.

Lemma increments_nonneg u p :
  ∃ a b c d e, increments u p = (a, b, c, d, e) ∧
    0 ≤ c ∧ c ≤ b ∧ b ≤ a ∧ 0 ≤ e ∧ e ≤ d.
Proof.
  unfold increments. do 5 eexists. split; [reflexivity|].
  destruct (UrlData.valid u), p; lia.
Qed.

Lemma invoke_step c m :
  keeps_accounting →
  counters_le (logger m) (logger (invoke c m).2) ∧
  (accounting_ok (logger m) → accounting_ok (logger (invoke c m).2)).
Proof.
  intros Hkeep. pose proof (invoke_counters c m Hkeep) as Hc.
  unfold counters_le, accounting_ok.
  generalize dependent (logger (invoke c m).2). intros l' Hc.
  destruct c as [| | | | | | | |u p];
    try (unfold counters in Hc; injection Hc as -> -> -> -> ->;
         split; intros; lia).
  destruct (increments_nonneg u p) as (a & b & c & d & e & Hinc & ?).
  rewrite Hinc in Hc. unfold counters, add5 in Hc.
  injection Hc as -> -> -> -> ->. split; intros; lia.
Qed.

Lemma session_cons c cs m : session (c :: cs) m = session cs (invoke c m).2.
Proof. reflexivity. Qed.

Lemma session_counters_le cs m :
  keeps_accounting → counters_le (logger m) (logger (session cs m)).
Proof.
  intros Hkeep. revert m. induction cs as [|c cs IH]; intros m.
  - unfold counters_le. simpl. lia.
  - rewrite session_cons. specialize (IH (invoke c m).2).
    destruct (invoke_step c m Hkeep) as [Hle _].
    unfold counters_le in *. lia.
Qed.

Lemma session_accounting_ok cs m :
  keeps_accounting → accounting_ok (logger m) → accounting_ok (logger (session cs m)).
Proof.
  intros Hkeep. revert m. induction cs as [|c cs IH]; intros m Hm; [exact Hm|].
  rewrite session_cons. apply IH, invoke_step; assumption.
Qed.

Lemma suppressed_session us m :
  let m' := session (map (fun u => LogFilterUrl u false) us) m in
  number (logger m') = number (logger m) + Z.of_nat (length us) ∧
  errors_printed (logger m') = errors_printed (logger m) ∧
  warnings_printed (logger m') = warnings_printed (logger m).
Proof.
  revert m. induction us as [|u us IH]; intros m.
  - simpl. repeat split; lia.
  - cbn [map length]. cbv zeta. rewrite session_cons.
    specialize (IH (invoke (LogFilterUrl u false) m).2).
    cbv zeta in IH. destruct IH as (IH1 & IH2 & IH3).
    rewrite IH1, IH2, IH3. cbn [invoke].
    destruct (log_filter_url_quiet u m) as (l' & -> & Hl'). cbn [snd logger].
    unfold counters, increments, add5 in Hl'.
    injection Hl' as Hn _ Hep _ Hwp. rewrite Hn, Hep, Hwp.
    repeat split; try lia. destruct (UrlData.valid u); lia.
Qed.


(** C2: from a fresh logger, a valid URL without warnings that is
    printed and then an invalid URL with two warnings that is not leave
    the counters at 2, 1, 0, 2, 0; and any number of calls with
    [do_print] false add that number to [number] and leave
    [errors_printed] and [warnings_printed] alone. *)
Theorem suppressed_intake_counts (Hkeep : keeps_accounting) :
  (∀ args w u1 u2,
      UrlData.valid u1 = true → length (UrlData.warnings u1) = 0%nat →
      UrlData.valid u2 = false → length (UrlData.warnings u2) = 2%nat →
      counters (logger (session [LogFilterUrl u1 true; LogFilterUrl u2 false]
                                (fresh args w))) = (2, 1, 0, 2, 0)) ∧
  (∀ us m,
      let m' := session (map (fun u => LogFilterUrl u false) us) m in
      number (logger m') = number (logger m) + Z.of_nat (length us) ∧
      errors_printed (logger m') = errors_printed (logger m) ∧
      warnings_printed (logger m') = warnings_printed (logger m)).
Proof.
  split; [|apply suppressed_session].
  intros args w u1 u2 Hv1 Hw1 Hv2 Hw2.
  rewrite !session_cons. unfold session. cbn [fold_left].
  rewrite !invoke_counters by assumption.
  unfold increments. rewrite Hv1, Hw1, Hv2, Hw2. reflexivity.
Qed.

(** C10: the five counters are zero after [__init__]; no method but
    [log_filter_url] changes them; along any sequence of calls none of
    them decreases; and after every call
    [errors_printed <= errors <= number] and
    [warnings_printed <= warnings]. *)
Theorem counters_invariant (Hkeep : keeps_accounting) :
  (∀ args, counters (__init__ args) = (0, 0, 0, 0, 0)) ∧
  (∀ c m, is_intake c = false →
          counters (logger (invoke c m).2) = counters (logger m)) ∧
  (∀ cs m, counters_le (logger m) (logger (session cs m))) ∧
  (∀ cs args w, accounting_ok (logger (session cs (fresh args w)))).
Proof.
  split; [reflexivity|]. split; [|split].
  - intros c m Hc. apply (invoke_keeps_counters c Hc).
  - intros cs m. apply session_counters_le, Hkeep.
  - intros cs args w. apply session_accounting_ok; [exact Hkeep|].
    unfold accounting_ok. simpl. lia.
Qed.
End counting.

Lemma silent_renderer_keeps_accounting `{!Env} : @keeps_accounting _ silent_renderer.
Proof. intros u m. reflexivity. Qed.

Lemma base_renderer_keeps_accounting `{!Env} : @keeps_accounting _ base_renderer.
Proof. intros u m. reflexivity. Qed.


Lemma suppressed_intake_counts_witness :
  @keeps_accounting posix_env silent_renderer ∧
  counters (logger (@session posix_env silent_renderer
                      [LogFilterUrl ok_link true; LogFilterUrl broken_link false]
                      (@fresh posix_env no_args (empty_disk false)))) = (2, 1, 0, 2, 0).
Proof.
  split; [apply silent_renderer_keeps_accounting|].
  apply (proj1 (@suppressed_intake_counts posix_env silent_renderer
                  silent_renderer_keeps_accounting)); reflexivity.
Defined.

Lemma counters_invariant_witness :
  @keeps_accounting posix_env base_renderer ∧
  accounting_ok (logger (@session posix_env base_renderer
                           [LogFilterUrl broken_link true; StartOutput;
                            LogFilterUrl ok_link false]
                           (@fresh posix_env no_args (empty_disk false)))).
Proof.
  split; [apply base_renderer_keeps_accounting|].
  apply (@counters_invariant posix_env base_renderer base_renderer_keeps_accounting).
Defined.

(** Settles a closed decidable proposition by evaluation. *)
Ltac by_decide :=
  match goal with
  | |- ?P => apply (bool_decide_unpack P); vm_compute; exact I
  end.

(** ** Part selection and labels *)

Section parts.
Context `{!Env}.

Lemma field_names_items : field_names = Fields_items.*1.
Proof. reflexivity. Qed.

Lemma Fields_lookup_Some name :
  name ∈ field_names → ∃ label, Fields !! name = Some label ∧ label ≠ "".
Proof.
  unfold field_names. rewrite !elem_of_cons, elem_of_nil.
  intros Hin; repeat (destruct Hin as [->|Hin]); try (destruct Hin);
    (eexists; split; [vm_compute; reflexivity | discriminate]).
Qed.

Lemma Fields_lookup_None name : name ∉ field_names → Fields !! name = None.
Proof.
  intros Hn. apply not_elem_of_list_to_map_1. rewrite <- field_names_items. exact Hn.
Qed.

Lemma Fields_keys_names name : name ∈ Fields_keys ↔ name ∈ field_names.
Proof.
  unfold Fields_keys. rewrite list_elem_of_fmap. split.
  - intros ([k v] & -> & Hkv). apply elem_of_map_to_list in Hkv. simpl.
    destruct (decide (k ∈ field_names)) as [|Hn]; [assumption|].
    rewrite (Fields_lookup_None _ Hn) in Hkv. discriminate.
  - intros Hin. destruct (Fields_lookup_Some name Hin) as (label & Hl & _).
    exists (name, label). split; [reflexivity|]. apply elem_of_map_to_list, Hl.
Qed.

(** C4: [has_part] holds of every name when no [parts] were given or
    [parts] contains ["all"]; otherwise it holds exactly of the members
    of [parts]. *)
Theorem has_part_selection (args : Args) (name : string) :
  (arg_parts args = None → has_part (__init__ args) name = true) ∧
  (∀ parts, arg_parts args = Some parts → "all" ∈ parts →
            has_part (__init__ args) name = true) ∧
  (∀ parts, arg_parts args = Some parts → "all" ∉ parts →
            (has_part (__init__ args) name = true ↔ name ∈ parts)).
Proof.
  unfold has_part, __init__. cbn [logparts].
  split; [|split].
  - intros ->. reflexivity.
  - intros parts -> Hall. rewrite bool_decide_eq_true_2 by assumption. reflexivity.
  - intros parts -> Hall. rewrite bool_decide_eq_false_2 by assumption.
    cbn. apply bool_decide_eq_true.
Qed.

(** C5: for each of the thirteen field names [part] returns a label that
    is not empty, as long as the translation of a non-empty message is
    not empty; for any other name it raises [KeyError], a
    [LookupError]. *)
Theorem part_label (Hgettext : ∀ s, s ≠ "" → gettext s ≠ "") (name : string) :
  (name ∈ field_names → ∃ label, part name = Ok label ∧ label ≠ "") ∧
  (name ∉ field_names →
   part name = Raise KeyError ∧ exn_isinstance KeyError LookupError = true).
Proof.
  unfold part. split.
  - intros Hin. destruct (Fields_lookup_Some name Hin) as (label & -> & Hne).
    exists (gettext label). split; [reflexivity|]. apply Hgettext, Hne.
  - intros Hn. rewrite (Fields_lookup_None name Hn). split; reflexivity.
Qed.
End parts.

Lemma has_part_selection_witness :
  has_part (@__init__ posix_env
    {| arg_parts := Some ["url"; "all"]; arg_encoding := None;
       arg_fileoutput := false; arg_filename := None; arg_fd := None |}) "result" = true ∧
  (has_part (@__init__ posix_env
    {| arg_parts := Some ["url"; "result"]; arg_encoding := None;
       arg_fileoutput := false; arg_filename := None; arg_fd := None |}) "name" = true
   ↔ "name" ∈ ["url"; "result"]).
Proof.
  split.
  - apply (proj1 (proj2 (@has_part_selection posix_env _ "result")) ["url"; "all"]);
      [reflexivity | by_decide].
  - apply (proj2 (proj2 (@has_part_selection posix_env _ "name")) ["url"; "result"]);
      [reflexivity | by_decide].
Defined.

Lemma part_label_witness :
  (∃ label, @part posix_env "url" = Ok label ∧ label ≠ "") ∧
  @part posix_env "uri" = Raise KeyError.
Proof.
  assert (Hg : ∀ s : string, s ≠ "" → @gettext posix_env s ≠ "") by (intros s Hs; exact Hs).
  split.
  - apply (proj1 (@part_label posix_env Hg "url")). by_decide.
  - apply (proj2 (@part_label posix_env Hg "uri")). by_decide.
Defined.


(** ** Alignment *)

Section alignment.
Context `{!Env}.

Lemma res_map_inv {A B} (f : A → Res B) xs ys :
  res_map f xs = Ok ys → Forall2 (fun x y => f x = Ok y) xs ys.
Proof.
  revert ys. induction xs as [|x xs IH]; simpl; intros ys Hys.
  - injection Hys as <-. constructor.
  - destruct (f x) as [y|e] eqn:Hfx; simpl in Hys; [|discriminate].
    destruct (res_map f xs) as [ys'|e]; simpl in Hys; [|discriminate].
    injection Hys as <-. constructor; auto.
Qed.

Lemma res_map_total {A B} (f : A → Res B) xs :
  Forall (fun x => is_ok (f x) = true) xs → ∃ ys, res_map f xs = Ok ys.
Proof.
  induction 1 as [|x xs Hx _ [ys IH]]; simpl; [eauto|].
  destruct (f x) as [y|e]; [|discriminate]. rewrite IH. simpl. eauto.
Qed.

Lemma fold_left_max xs x :
  fold_left Z.max xs x ∈ x :: xs ∧ ∀ y, y ∈ x :: xs → y ≤ fold_left Z.max xs x.
Proof.
  revert x. induction xs as [|z xs IH]; intros x; simpl.
  - split; [left|]. intros y Hy. apply list_elem_of_singleton in Hy. lia.
  - destruct (IH (Z.max x z)) as [Hin Hle]. split.
    + apply elem_of_cons in Hin as [Heq|Hin]; [|do 2 right; exact Hin].
      rewrite Heq. destruct (Z.max_spec x z) as [[_ ->]|[_ ->]];
        [right; left | left].
    + intros y Hy. apply elem_of_cons in Hy as [->|Hy].
      * specialize (Hle (Z.max x z) ltac:(left)). lia.
      * apply elem_of_cons in Hy as [->|Hy].
        -- specialize (Hle (Z.max x z) ltac:(left)). lia.
        -- apply Hle. right. exact Hy.
Qed.

Lemma py_max_spec xs mx :
  py_max xs = Ok mx → mx ∈ xs ∧ ∀ y, y ∈ xs → y ≤ mx.
Proof.
  destruct xs as [|x xs]; simpl; [discriminate|].
  intros [= <-]. apply fold_left_max.
Qed.

(** The loop of [start_output] on names that all have a label: it
    returns, and has put the padding of each name under it. *)
Lemma start_output_loop_spec parts m :
  Forall (fun k => is_ok (part k) = true) parts →
  ∃ sp,
    start_output_loop parts m =
      (Ok tt, {| logger := set_logspaces (fun _ => sp) (logger m);
                 world := world m; trace := trace m |}) ∧
    (∀ key, key ∈ parts →
       ∃ label, part key = Ok label ∧
                sp !! key = Some (spaces_of (max_indent (logger m) - len label))) ∧
    (∀ key, key ∉ parts → sp !! key = logspaces (logger m) !! key).
Proof.
  intros Hparts. revert m.
  induction Hparts as [|key rest Hkey _ IH]; intros m.
  - exists (logspaces (logger m)). split; [|split].
    + destruct m as [[] w t]; reflexivity.
    + intros key Hin. apply elem_of_nil in Hin. destruct Hin.
    + reflexivity.
  - destruct (part key) as [label|e] eqn:Hlabel; [|discriminate].
    set (v := spaces_of (max_indent (logger m) - len label)).
    set (m1 := {| logger := set_logspaces (insert key v) (logger m);
                  world := world m; trace := trace m |}).
    destruct (IH m1) as (sp & Hrun & Hin & Hout).
    exists sp. split; [|split].
    + cbn [start_output_loop]. unfold bind, get_logger, lift, modify_logger.
      rewrite Hlabel. fold v. fold m1. rewrite Hrun. reflexivity.
    + intros k Hk. destruct (decide (k ∈ rest)) as [Hr|Hr]; [exact (Hin k Hr)|].
      apply elem_of_cons in Hk as [->|Hk]; [|contradiction].
      exists label. split; [exact Hlabel|]. rewrite (Hout key Hr).
      simpl. apply lookup_insert_eq.
    + intros k Hk. apply not_elem_of_cons in Hk as [Hne Hr].
      rewrite (Hout k Hr). simpl. apply lookup_insert_ne. congruence.
Qed.

(** On a selection that is not empty and names fields only,
    [start_output] returns. *)
Lemma start_output_returns m :
  selection (logger m) ≠ [] →
  Forall (fun k => k ∈ field_names) (selection (logger m)) →
  ∃ m', start_output m = (Ok tt, m').
Proof.
  intros Hne Hnames.
  assert (Hok : Forall (fun k => is_ok (part k) = true) (selection (logger m))).
  { eapply Forall_impl; [exact Hnames|]. intros k Hk. unfold part.
    destruct (Fields_lookup_Some k Hk) as (label & -> & _). reflexivity. }
  unfold start_output, bind, get_logger, lift. fold (selection (logger m)).
  destruct (res_map_total (fun x => res_bind (part x) (fun v => Ok (len v)))
              (selection (logger m))) as [lens Hlens].
  { eapply Forall_impl; [exact Hok|]. intros k. simpl.
    destruct (part k); [reflexivity|discriminate]. }
  rewrite Hlens. apply res_map_inv, Forall2_length in Hlens.
  destruct lens as [|n lens];
    [destruct (selection (logger m)); [contradiction|discriminate]|].
  cbn [py_max]. unfold modify_logger.
  match goal with
  | |- ∃ _, start_output_loop _ ?m1 = _ =>
      destruct (start_output_loop_spec _ m1 Hok) as (sp & Hloop & _)
  end.
  rewrite Hloop. eauto.
Qed.
(** With all the fields selected, [start_output] returns. *)
Lemma start_output_all_fields_returns m :
  logparts (logger m) = None → ∃ m', start_output m = (Ok tt, m').
Proof.
  intros Hall. apply start_output_returns; unfold selection; rewrite Hall.
  - intros Hnil. assert (Hurl : "url" ∈ Fields_keys) by (apply Fields_keys_names; by_decide).
    rewrite Hnil in Hurl. apply elem_of_nil in Hurl. exact Hurl.
  - apply Forall_forall. intros k. apply Fields_keys_names.
Qed.

Lemma length_spaces_of n : 0 ≤ n → Z.of_nat (length (spaces_of n)) = n.
Proof. intros Hn. unfold spaces_of. rewrite length_replicate. lia. Qed.



End alignment.


(** ** The text codec *)

Section codec.
Context `{!Env}.





End codec.




(** ** The file output *)

(** Unfolds the monad down to functions on machines. *)
Ltac unfold_monad :=
  unfold modify_fileoutput, get_fileoutput, Dummy_call in *;
  unfold bind, ret, raise, lift, get_logger, modify_logger, emit, ask, call,
    try_except in *.

Section fileoutput.
Context `{!Env}.

(** What [start_fileoutput] does on a logger that holds a file name: it
    lets the [OSError] of [os.makedirs] through and leaves the logger as
    it was; or [file] fails, and the logger is left with a dummy, a warning
    and no file name; or [file] succeeds, and the logger owns the new
    file object. *)
Lemma start_fileoutput_outcomes m fo name :
  fileoutput (logger m) = Some fo → filename fo = Some name →
  let path := os_path_dirname name in
  ∃ w t,
    start_fileoutput m =
      (Raise OSError,
       {| logger := logger m; world := w; trace := trace m ++ [EvMakedirs path] |})
    ∨ ((t = [] ∨ t = [EvMakedirs path]) ∧
       start_fileoutput m =
         (Ok tt,
          {| logger := set_fileoutput (fun _ =>
               Some {| filename := None; close_fd := close_fd fo; fd := FdDummy |})
               (logger m);
             world := w;
             trace := trace m ++ t ++ [EvFile name; EvWarnCouldNotOpen name] |}))
    ∨ ((t = [] ∨ t = [EvMakedirs path]) ∧
       ∃ h, start_fileoutput m =
         (Ok tt,
          {| logger := set_fileoutput (fun _ =>
               Some {| filename := None; close_fd := true; fd := FdStream h |})
               (logger m);
             world := w;
             trace := trace m ++ t ++ [EvFile name] |})).
Proof.
  destruct m as [[lp ls mi n e ep wn wp enc fout] w t]. simpl.
  intros -> Hname. unfold start_fileoutput, makedirs, file. unfold_monad.
  simpl. rewrite Hname. unfold set_fileoutput; simpl.
  destruct (bool_decide (os_path_dirname name ≠ "")); simpl;
    [destruct (os_path_isdir (os_path_dirname name) w); simpl|].
  2: destruct (os_makedirs (os_path_dirname name) w) as [[] w1]; simpl.
  all: try (destruct (file_wb name _) as [[h|] w2]; simpl).
  all: rewrite <- ?app_assoc; simpl.
  all: first
    [ eexists _, []; left; reflexivity
    | eexists _, _; right; left; split; [left; reflexivity|]; reflexivity
    | eexists _, _; right; left; split; [right; reflexivity|]; reflexivity
    | eexists _, _; right; right; split; [left; reflexivity|]; eexists; reflexivity
    | eexists _, _; right; right; split; [right; reflexivity|]; eexists; reflexivity ].
Qed.
(** [start_output] touches neither the file output nor the outside. *)
Lemma start_output_loop_frame parts m :
  fileoutput (logger (start_output_loop parts m).2) = fileoutput (logger m) ∧
  world (start_output_loop parts m).2 = world m ∧
  trace (start_output_loop parts m).2 = trace m.
Proof.
  revert m. induction parts as [|key rest IH]; intros m; [repeat split|].
  cbn [start_output_loop]. unfold_monad. destruct (part key); [|repeat split].
  match goal with |- context [start_output_loop rest ?m1] => specialize (IH m1) end.
  destruct (start_output_loop rest _) as [[] ?]; exact IH.
Qed.

Lemma start_output_frame m :
  fileoutput (logger (start_output m).2) = fileoutput (logger m) ∧
  world (start_output m).2 = world m ∧
  trace (start_output m).2 = trace m.
Proof.
  unfold start_output. unfold_monad.
  destruct (res_map _ _); [|repeat split].
  destruct (py_max _); [|repeat split].
  match goal with |- context [start_output_loop ?ps ?m1] =>
    pose proof (start_output_loop_frame ps m1) as Hloop end.
  destruct (start_output_loop _ _) as [[] ?]; exact Hloop.
Qed.

(** A write with neither a file name nor a file object: a warning, the
    data dropped, nothing raised. *)
Lemma write_without_stream s m fo :
  fileoutput (logger m) = Some fo → filename fo = None → fd fo = FdNone →
  write s m =
    (Ok tt, {| logger := logger m; world := world m;
               trace := trace m ++ [EvWarnClosedFile] |}).
Proof.
  destruct m as [[lp ls mi n e ep wn wp enc fout] w t], fo as [fname cfd f].
  simpl. intros -> -> ->. reflexivity.
Qed.

(** The [OSError] of [os.makedirs] goes through [write] to the caller;
    the logger keeps its file name and has no file object. *)
Lemma write_makedirs_failure s m fo name w1 :
  fileoutput (logger m) = Some fo → filename fo = Some name →
  os_path_dirname name ≠ "" →
  os_path_isdir (os_path_dirname name) (world m) = false →
  os_makedirs (os_path_dirname name) (world m) = (false, w1) →
  write s m =
    (Raise OSError,
     {| logger := logger m; world := w1;
        trace := trace m ++ [EvMakedirs (os_path_dirname name)] |}).
Proof.
  destruct m as [[lp ls mi n e ep wn wp enc fout] w t], fo as [fname cfd f].
  simpl. intros -> -> Hpath Hisdir Hmk.
  unfold write, start_fileoutput, makedirs. unfold_monad. simpl.
  rewrite (bool_decide_eq_true_2 _ Hpath). simpl.
  rewrite Hisdir. simpl. rewrite Hmk. reflexivity.
Qed.
Lemma closes_app t1 t2 : closes (t1 ++ t2) = (closes t1 ++ closes t2)%list.
Proof. apply flat_map_app. Qed.

Lemma bind_snd {A B} (c : M A) (k : A → M B) m (P : Machine → Prop) :
  P (c m).2 → (∀ a, P (k a (c m).2).2) → P (bind c k m).2.
Proof. unfold bind. destruct (c m) as [[a|e] m']; simpl; auto. Qed.

(** Leaves of a method unfolded on a borrowed logger. *)
Ltac borrowed_leaf :=
  simpl; split;
  [ eexists; repeat split; reflexivity
  | rewrite ?closes_app; simpl; rewrite ?app_nil_r; reflexivity ].

#[local] Opaque encode.

Lemma borrowed_write s m :
  borrowed (logger m) →
  borrowed (logger (write s m).2) ∧ closes (trace (write s m).2) = closes (trace m).
Proof.
  destruct m as [[lp ls mi n e ep wn wp enc fout] w t].
  intros ([fname cfd f] & Hfo & Hname & Hcfd). simpl in *. subst.
  unfold write, fd_write. unfold_monad. simpl.
  destruct f as [| |h]; simpl; try borrowed_leaf;
    destruct (encode _ s) as [data|x]; simpl; try borrowed_leaf.
  destruct (stream_write h data w) as [[x|] w']; borrowed_leaf.
Qed.

#[local] Transparent encode.

Lemma borrowed_flush m :
  borrowed (logger m) →
  borrowed (logger (flush m).2) ∧ closes (trace (flush m).2) = closes (trace m).
Proof.
  destruct m as [[lp ls mi n e ep wn wp enc fout] w t].
  intros ([fname cfd f] & Hfo & Hname & Hcfd). simpl in *. subst.
  unfold flush, fd_flush. unfold_monad. simpl.
  destruct f as [| |h]; simpl; try borrowed_leaf.
  destruct (stream_flush h w) as [[x|] w']; simpl; try borrowed_leaf.
  destruct x; borrowed_leaf.
Qed.

Lemma borrowed_close_fileoutput m :
  borrowed (logger m) →
  borrowed (logger (close_fileoutput m).2) ∧
  closes (trace (close_fileoutput m).2) = closes (trace m).
Proof.
  destruct m as [[lp ls mi n e ep wn wp enc fout] w t].
  intros ([fname cfd f] & Hfo & Hname & Hcfd). simpl in *. subst.
  unfold close_fileoutput, flush, fd_flush. unfold_monad. simpl.
  destruct f as [| |h]; simpl; try borrowed_leaf.
  destruct (stream_flush h w) as [[x|] w']; simpl; try borrowed_leaf.
  destruct x; borrowed_leaf.
Qed.

Lemma borrowed_start_fileoutput m :
  borrowed (logger m) → start_fileoutput m = (Raise AttributeError, m).
Proof.
  destruct m as [[lp ls mi n e ep wn wp enc fout] w t].
  intros ([fname cfd f] & Hfo & Hname & Hcfd). simpl in *. subst. reflexivity.
Qed.

(** No call that uses the file output of a borrowed logger closes
    anything, and the logger stays borrowed. *)
Lemma borrowed_invoke `{!Renderer} c m :
  uses_sink c = true → borrowed (logger m) →
  borrowed (logger (invoke c m).2) ∧ closes (trace (invoke c m).2) = closes (trace m).
Proof.
  intros Hc Hm. destruct c; try discriminate Hc; cbn [invoke].
  - rewrite (borrowed_start_fileoutput m Hm). auto.
  - apply borrowed_close_fileoutput, Hm.
  - apply borrowed_write, Hm.
  - unfold writeln. apply bind_snd; [apply borrowed_write, Hm|]. intros _.
    destruct (borrowed_write s m Hm) as [Hb <-]. apply borrowed_write, Hb.
  - unfold comment, writeln. apply bind_snd; [apply borrowed_write, Hm|]. intros _.
    destruct (borrowed_write s m Hm) as [Hb <-]. apply borrowed_write, Hb.
  - apply borrowed_flush, Hm.
  - destruct (start_output_frame m) as (Hfo & _ & ->). split; [|reflexivity].
    destruct Hm as (fo & Hm & ?). exists fo. rewrite Hfo. auto.
Qed.

Lemma borrowed_session `{!Renderer} cs m :
  Forall (fun c => uses_sink c = true) cs → borrowed (logger m) →
  borrowed (logger (session cs m)) ∧ closes (trace (session cs m)) = closes (trace m).
Proof.
  intros Hcs. revert m. induction Hcs as [|c cs Hc _ IH]; intros m Hm; [auto|].
  rewrite session_cons. destruct (borrowed_invoke c m Hc Hm) as [Hb <-].
  apply IH, Hb.
Qed.

(** [init_fileoutput] without a file name leaves the logger borrowed,
    with the given file object or [sys.stdout]. *)
Lemma init_fileoutput_borrowed args m :
  arg_fileoutput args = false →
  init_fileoutput args m =
    (Ok tt,
     {| logger := set_fileoutput (fun _ =>
          Some {| filename := None; close_fd := false;
                  fd := default (FdStream sys_stdout) (arg_fd args) |}) (logger m);
        world := world m; trace := trace m |}).
Proof.
  intros Hargs. unfold init_fileoutput. rewrite Hargs. unfold_monad.
  destruct m as [[lp ls mi n e ep wn wp enc fout] w t].
  destruct (arg_fd args); reflexivity.
Qed.
(** A [close_fileoutput] that returns has flushed, has closed the file
    object when the logger owned it, and has left [None] in [fd]. *)
Lemma close_fileoutput_returns m m' fo :
  fileoutput (logger m) = Some fo → close_fileoutput m = (Ok tt, m') →
  fileoutput (logger m') = Some (set_fd FdNone fo) ∧
  trace m' = trace m ++
    match fd fo with
    | FdStream h => EvFlush h :: (if close_fd fo then [EvClose h] else [])
    | _ => []
    end.
Proof.
  destruct m as [[lp ls mi n e ep wn wp enc fout] w t], fo as [fname cfd f].
  simpl. intros ->.
  unfold close_fileoutput, flush, fd_flush, fd_close. unfold_monad. simpl.
  destruct f as [| |h]; simpl.
  - intros [= <-]. simpl. rewrite app_nil_r. auto.
  - destruct cfd; simpl; intros [= <-]; simpl; rewrite app_nil_r; auto.
  - destruct (stream_flush h w) as [[x|] w1]; simpl.
    + destruct x; simpl; try discriminate;
        (destruct cfd; simpl;
         [destruct (stream_close h w1) as [[y|] w2]; simpl; try discriminate|];
         intros [= <-]; simpl; rewrite <- ?app_assoc; auto).
    + destruct cfd; simpl;
        [destruct (stream_close h w1) as [[y|] w2]; simpl; try discriminate|];
        intros [= <-]; simpl; rewrite <- ?app_assoc; auto.
Qed.

(** Whatever [close_fileoutput] does, it closes nothing that the logger
    does not own. *)
Lemma close_fileoutput_closes m h :
  h ∈ closes (trace (close_fileoutput m).2) →
  h ∈ closes (trace m) ∨
  ∃ fo, fileoutput (logger m) = Some fo ∧ close_fd fo = true ∧ fd fo = FdStream h.
Proof.
  destruct m as [[lp ls mi n e ep wn wp enc fout] w t].
  unfold close_fileoutput, flush, fd_flush, fd_close. unfold_monad. simpl.
  destruct fout as [[fname cfd f]|]; simpl; [|auto].
  destruct f as [| |h']; simpl; [auto| |].
  - destruct cfd; simpl; auto.
  - destruct (stream_flush h' w) as [[x|] w1]; simpl.
    + destruct x; simpl; rewrite ?closes_app; simpl; rewrite ?app_nil_r; auto;
        (destruct cfd; simpl;
         [destruct (stream_close h' w1) as [[y|] w2]; simpl|];
         rewrite ?closes_app; simpl; rewrite ?app_nil_r; auto;
         rewrite elem_of_app, list_elem_of_singleton; intros [?| ->]; eauto).
    + destruct cfd; simpl;
        [destruct (stream_close h' w1) as [[y|] w2]; simpl|];
        rewrite ?closes_app; simpl; rewrite ?app_nil_r; auto;
        rewrite elem_of_app, list_elem_of_singleton; intros [?| ->]; eauto.
Qed.

Lemma close_fileoutput_closed m fo :
  fileoutput (logger m) = Some fo → fd fo = FdNone →
  close_fileoutput m = (Ok tt, m).
Proof.
  destruct m as [[lp ls mi n e ep wn wp enc fout] w t], fo as [fname cfd f].
  simpl. intros -> ->. reflexivity.
Qed.

(** The logger comes to own a file object only where [file] has just
    returned it. *)
Lemma start_fileoutput_owns m fo name fo' :
  fileoutput (logger m) = Some fo → filename fo = Some name → close_fd fo = false →
  fileoutput (logger (start_fileoutput m).2) = Some fo' → close_fd fo' = true →
  (∃ h, fd fo' = FdStream h) ∧ last (trace (start_fileoutput m).2) = Some (EvFile name).
Proof.
  intros Hfo Hname Hcfd.
  destruct (start_fileoutput_outcomes m fo name Hfo Hname)
    as (w & t & [-> | [[_ ->] | [_ [h ->]]]]); simpl.
  - rewrite Hfo. intros [= <-]. congruence.
  - destruct (logger m); simpl. intros [= <-]. simpl. congruence.
  - destruct (logger m); simpl. intros [= <-] _. split; [eauto|].
    rewrite !app_assoc. apply last_snoc.
Qed.

(** On a file object it owns, [close_fileoutput] flushes, closes and
    returns, when the flush raises nothing but what [flush] swallows and
    the close raises nothing. *)
Lemma close_fileoutput_owned m fo h r w1 w2 :
  fileoutput (logger m) = Some fo → fd fo = FdStream h → close_fd fo = true →
  stream_flush h (world m) = (r, w1) →
  (∀ e, r = Some e → except_clause [IOError; AttributeError] e = true) →
  stream_close h w1 = (None, w2) →
  close_fileoutput m =
    (Ok tt, {| logger := set_fileoutput (fun _ => Some (set_fd FdNone fo)) (logger m);
               world := w2; trace := trace m ++ [EvFlush h; EvClose h] |}).
Proof.
  destruct m as [[lp ls mi n e ep wn wp enc fout] w t], fo as [fname cfd f].
  simpl. intros -> -> -> Hflush Hcaught Hclose.
  unfold close_fileoutput, flush, fd_flush, fd_close. unfold_monad. simpl.
  rewrite Hflush. destruct r as [x|]; simpl.
  - specialize (Hcaught x eq_refl). simpl in Hcaught. rewrite Hcaught. simpl.
    rewrite Hclose. simpl. rewrite <- app_assoc. reflexivity.
  - rewrite Hclose. simpl. rewrite <- app_assoc. reflexivity.
Qed.

(** On a file object it does not own, it flushes and returns. *)
Lemma close_fileoutput_not_owned m fo h r w1 :
  fileoutput (logger m) = Some fo → fd fo = FdStream h → close_fd fo = false →
  stream_flush h (world m) = (r, w1) →
  (∀ e, r = Some e → except_clause [IOError; AttributeError] e = true) →
  close_fileoutput m =
    (Ok tt, {| logger := set_fileoutput (fun _ => Some (set_fd FdNone fo)) (logger m);
               world := w1; trace := trace m ++ [EvFlush h] |}).
Proof.
  destruct m as [[lp ls mi n e ep wn wp enc fout] w t], fo as [fname cfd f].
  simpl. intros -> -> -> Hflush Hcaught.
  unfold close_fileoutput, flush, fd_flush, fd_close. unfold_monad. simpl.
  rewrite Hflush. destruct r as [x|]; simpl; [|reflexivity].
  specialize (Hcaught x eq_refl). simpl in Hcaught. rewrite Hcaught. reflexivity.
Qed.

(** Without a file object to call, it returns and calls nothing. *)
Lemma close_fileoutput_no_stream m fo :
  fileoutput (logger m) = Some fo → fd fo = FdNone ∨ fd fo = FdDummy →
  close_fileoutput m =
    (Ok tt, {| logger := set_fileoutput (fun _ => Some (set_fd FdNone fo)) (logger m);
               world := world m; trace := trace m |}).
Proof.
  destruct m as [[lp ls mi n e ep wn wp enc fout] w t], fo as [fname cfd f].
  simpl. intros -> [-> | ->]; [reflexivity|]. destruct cfd; reflexivity.
Qed.

Lemma borrowed_log_filter_url `{!Renderer} u p m :
  keeps_borrowed → borrowed (logger m) →
  borrowed (logger (log_filter_url u p m).2) ∧
  closes (trace (log_filter_url u p m).2) = closes (trace m).
Proof.
  intros Hkeep Hm. destruct p.
  - unfold log_filter_url. unfold_monad.
    destruct (UrlData.valid u); simpl;
      match goal with |- context [log_url u ?m1] =>
        destruct (Hkeep u m1) as [Hb Hc];
          [destruct Hm as (fo & ? & ? & ?); exists fo; auto|];
          destruct (log_url u m1) as [[] m2]; simpl in *; auto
      end.
  - destruct (log_filter_url_quiet u m) as (l' & Hrun & Hl').
    revert Hrun. unfold log_filter_url. unfold_monad.
    destruct (UrlData.valid u); simpl; intros _;
      (split; [destruct Hm as (fo & ? & ? & ?); exists fo; auto|reflexivity]).
Qed.

Lemma borrowed_session_intake `{!Renderer} cs m :
  keeps_borrowed →
  Forall (fun c => after_init c = true) cs → borrowed (logger m) →
  borrowed (logger (session cs m)) ∧ closes (trace (session cs m)) = closes (trace m).
Proof.
  intros Hkeep Hcs. revert m. induction Hcs as [|c cs Hc _ IH]; intros m Hm; [auto|].
  rewrite session_cons.
  assert (Hstep : borrowed (logger (invoke c m).2) ∧
                  closes (trace (invoke c m).2) = closes (trace m)).
  { destruct c; try discriminate Hc;
      try (apply borrowed_invoke; [reflexivity|exact Hm]).
    apply borrowed_log_filter_url; assumption. }
  destruct Hstep as [Hb <-]. apply IH, Hb.
Qed.

(** C9: a [close_fileoutput] that returns on a file object has flushed
    it and then, only if the logger owns it, closed it; nothing is ever
    closed that the logger does not own, and it owns only what [file] gave
    it; a logger initialised with a file object or left with [sys.stdout]
    closes nothing in any sequence of calls; and a second
    [close_fileoutput] after one that returned changes nothing and
    returns.  And it does return: on an owned file object it flushes,
    closes and resets [fd], on a borrowed one it flushes and resets [fd],
    without one it calls nothing; the borrowed file object stays unclosed
    through the intake calls too, with a subclass that keeps to it. *)
Theorem close_fileoutput_ownership `{!Renderer} :
  (∀ m m' fo h,
      fileoutput (logger m) = Some fo → fd fo = FdStream h →
      close_fileoutput m = (Ok tt, m') →
      trace m' = trace m ++ EvFlush h :: (if close_fd fo then [EvClose h] else []) ∧
      fileoutput (logger m') = Some (set_fd FdNone fo)) ∧
  (∀ m h,
      h ∈ closes (trace (close_fileoutput m).2) →
      h ∈ closes (trace m) ∨
      ∃ fo, fileoutput (logger m) = Some fo ∧ close_fd fo = true ∧ fd fo = FdStream h) ∧
  (∀ m fo name fo',
      fileoutput (logger m) = Some fo → filename fo = Some name → close_fd fo = false →
      fileoutput (logger (start_fileoutput m).2) = Some fo' → close_fd fo' = true →
      (∃ h, fd fo' = FdStream h) ∧
      last (trace (start_fileoutput m).2) = Some (EvFile name)) ∧
  (∀ args m cs,
      arg_fileoutput args = false → Forall (fun c => uses_sink c = true) cs →
      closes (trace (session cs (init_fileoutput args m).2)) = closes (trace m)) ∧
  (∀ m m', close_fileoutput m = (Ok tt, m') → close_fileoutput m' = (Ok tt, m')) ∧
  (∀ m fo h r w1 w2,
      fileoutput (logger m) = Some fo → fd fo = FdStream h → close_fd fo = true →
      stream_flush h (world m) = (r, w1) →
      (∀ e, r = Some e → except_clause [IOError; AttributeError] e = true) →
      stream_close h w1 = (None, w2) →
      close_fileoutput m =
        (Ok tt, {| logger := set_fileoutput (fun _ => Some (set_fd FdNone fo)) (logger m);
                   world := w2; trace := trace m ++ [EvFlush h; EvClose h] |})) ∧
  (∀ m fo h r w1,
      fileoutput (logger m) = Some fo → fd fo = FdStream h → close_fd fo = false →
      stream_flush h (world m) = (r, w1) →
      (∀ e, r = Some e → except_clause [IOError; AttributeError] e = true) →
      close_fileoutput m =
        (Ok tt, {| logger := set_fileoutput (fun _ => Some (set_fd FdNone fo)) (logger m);
                   world := w1; trace := trace m ++ [EvFlush h] |})) ∧
  (∀ m fo,
      fileoutput (logger m) = Some fo → fd fo = FdNone ∨ fd fo = FdDummy →
      close_fileoutput m =
        (Ok tt, {| logger := set_fileoutput (fun _ => Some (set_fd FdNone fo)) (logger m);
                   world := world m; trace := trace m |})) ∧
  (keeps_borrowed →
   ∀ args m cs,
      arg_fileoutput args = false → Forall (fun c => after_init c = true) cs →
      closes (trace (session cs (init_fileoutput args m).2)) = closes (trace m)).
Proof.
  split; [|split; [|split; [|split; [|split; [|split; [|split; [|split]]]]]]].
  - intros m m' fo h Hfo Hfd Hrun.
    destruct (close_fileoutput_returns m m' fo Hfo Hrun) as [Hfo' Htrace].
    rewrite Hfd in Htrace. auto.
  - apply close_fileoutput_closes.
  - apply start_fileoutput_owns.
  - intros args m cs Hargs Hcs. rewrite (init_fileoutput_borrowed args m Hargs).
    cbn [snd].
    match goal with |- closes (trace (session cs ?m1)) = _ =>
      destruct (borrowed_session cs m1 Hcs) as [_ ->]; [|reflexivity] end.
    eexists. cbn. repeat split; reflexivity.
  - intros m m' Hrun.
    destruct (fileoutput (logger m)) as [fo|] eqn:Hfo.
    + destruct (close_fileoutput_returns m m' fo Hfo Hrun) as [Hfo' _].
      apply (close_fileoutput_closed m' _ Hfo'). reflexivity.
    + exfalso. revert Hrun. unfold close_fileoutput. unfold_monad.
      cbv beta. rewrite Hfo. discriminate.
  - apply close_fileoutput_owned.
  - apply close_fileoutput_not_owned.
  - apply close_fileoutput_no_stream.
  - intros Hkeep args m cs Hargs Hcs. rewrite (init_fileoutput_borrowed args m Hargs).
    cbn [snd].
    match goal with |- closes (trace (session cs ?m1)) = _ =>
      destruct (borrowed_session_intake cs m1 Hkeep Hcs) as [_ ->]; [|reflexivity] end.
    eexists. cbn. repeat split; reflexivity.
Qed.
(** *** After the opening *)

Lemma openings_app t1 t2 : openings (t1 ++ t2) = openings t1 ++ openings t2.
Proof. apply List.filter_app. Qed.

(** Leaves of a method unfolded on a settled logger. *)
Ltac settled_leaf :=
  simpl; split;
  [ eexists; split; reflexivity
  | rewrite ?openings_app; simpl; rewrite ?app_nil_r; reflexivity ].

#[local] Opaque encode.

Lemma settled_write s m :
  settled (logger m) →
  settled (logger (write s m).2) ∧ openings (trace (write s m).2) = openings (trace m).
Proof.
  destruct m as [[lp ls mi n e ep wn wp enc fout] w t].
  intros ([fname cfd f] & Hfo & Hname). simpl in *. subst.
  unfold write, fd_write. unfold_monad. simpl.
  destruct f as [| |h]; simpl; try settled_leaf;
    destruct (encode _ s) as [data|x]; simpl; try settled_leaf.
  destruct (stream_write h data w) as [[x|] w']; settled_leaf.
Qed.

#[local] Transparent encode.

Lemma settled_flush m :
  settled (logger m) →
  settled (logger (flush m).2) ∧ openings (trace (flush m).2) = openings (trace m).
Proof.
  destruct m as [[lp ls mi n e ep wn wp enc fout] w t].
  intros ([fname cfd f] & Hfo & Hname). simpl in *. subst.
  unfold flush, fd_flush. unfold_monad. simpl.
  destruct f as [| |h]; simpl; try settled_leaf.
  destruct (stream_flush h w) as [[x|] w']; simpl; try settled_leaf.
  destruct x; settled_leaf.
Qed.

Lemma settled_close_fileoutput m :
  settled (logger m) →
  settled (logger (close_fileoutput m).2) ∧
  openings (trace (close_fileoutput m).2) = openings (trace m).
Proof.
  destruct m as [[lp ls mi n e ep wn wp enc fout] w t].
  intros ([fname cfd f] & Hfo & Hname). simpl in *. subst.
  unfold close_fileoutput, flush, fd_flush, fd_close. unfold_monad. simpl.
  destruct f as [| |h]; simpl; try settled_leaf.
  - destruct cfd; settled_leaf.
  - destruct (stream_flush h w) as [[x|] w']; simpl.
    + destruct x; simpl; try settled_leaf;
        (destruct cfd; simpl;
         [destruct (stream_close h w') as [[y|] w2]|]; settled_leaf).
    + destruct cfd; simpl;
        [destruct (stream_close h w') as [[y|] w2]|]; settled_leaf.
Qed.

Lemma settled_start_fileoutput m :
  settled (logger m) → start_fileoutput m = (Raise AttributeError, m).
Proof.
  destruct m as [[lp ls mi n e ep wn wp enc fout] w t].
  intros ([fname cfd f] & Hfo & Hname). simpl in *. subst. reflexivity.
Qed.

(** Once the file name is gone, no call that uses the file output tries
    to create a directory or a file again. *)
Lemma settled_invoke `{!Renderer} c m :
  uses_sink c = true → settled (logger m) →
  settled (logger (invoke c m).2) ∧
  openings (trace (invoke c m).2) = openings (trace m).
Proof.
  intros Hc Hm. destruct c; try discriminate Hc; cbn [invoke].
  - rewrite (settled_start_fileoutput m Hm). auto.
  - apply settled_close_fileoutput, Hm.
  - apply settled_write, Hm.
  - unfold writeln. apply bind_snd; [apply settled_write, Hm|]. intros _.
    destruct (settled_write s m Hm) as [Hb <-]. apply settled_write, Hb.
  - unfold comment, writeln. apply bind_snd; [apply settled_write, Hm|]. intros _.
    destruct (settled_write s m Hm) as [Hb <-]. apply settled_write, Hb.
  - apply settled_flush, Hm.
  - destruct (start_output_frame m) as (Hfo & _ & ->). split; [|reflexivity].
    destruct Hm as (fo & Hm & ?). exists fo. rewrite Hfo. auto.
Qed.

Lemma settled_session `{!Renderer} cs m :
  Forall (fun c => uses_sink c = true) cs → settled (logger m) →
  settled (logger (session cs m)) ∧
  openings (trace (session cs m)) = openings (trace m).
Proof.
  intros Hcs. revert m. induction Hcs as [|c cs Hc _ IH]; intros m Hm; [auto|].
  rewrite session_cons. destruct (settled_invoke c m Hc Hm) as [Hb <-].
  apply IH, Hb.
Qed.

(** A [start_fileoutput] that returns leaves the logger settled, whether
    [file] succeeded or not. *)
Lemma start_fileoutput_settles m m' fo name :
  fileoutput (logger m) = Some fo → filename fo = Some name →
  start_fileoutput m = (Ok tt, m') → settled (logger m').
Proof.
  intros Hfo Hname.
  destruct (start_fileoutput_outcomes m fo name Hfo Hname)
    as (w & t & [-> | [[_ ->] | [_ [h ->]]]]); [discriminate| |];
    intros [= <-]; destruct (logger m); eexists; split; reflexivity.
Qed.

(** *** A sink without a file object *)

Lemma discarding_flush m : discarding (logger m) → flush m = (Ok tt, m).
Proof.
  destruct m as [[lp ls mi n e ep wn wp enc fout] w t].
  intros ([fname cfd f] & Hfo & Hname & Hcfd & Hfd). simpl in *. subst.
  destruct Hfd as [-> | ->]; reflexivity.
Qed.

Lemma discarding_close_fileoutput m :
  discarding (logger m) →
  ∃ m', close_fileoutput m = (Ok tt, m') ∧ world m' = world m ∧
        trace m' = trace m ∧ discarding (logger m').
Proof.
  destruct m as [[lp ls mi n e ep wn wp enc fout] w t].
  intros ([fname cfd f] & Hfo & Hname & Hcfd & Hfd). simpl in *. subst.
  destruct Hfd as [-> | ->]; eexists; (split; [reflexivity|]);
    simpl; repeat split; eexists; simpl; eauto.
Qed.

(** When [start_fileoutput] has put the dummy in place ([file] raised
    its [IOError]), it has returned, has warned last, and the logger
    discards; a write of unicode text then returns as well. *)
Lemma start_fileoutput_file_failure m fo name fo' :
  fileoutput (logger m) = Some fo → filename fo = Some name →
  close_fd fo = false → fd fo = FdNone →
  fileoutput (logger (start_fileoutput m).2) = Some fo' → fd fo' = FdDummy →
  (start_fileoutput m).1 = Ok tt ∧
  discarding (logger (start_fileoutput m).2) ∧
  last (trace (start_fileoutput m).2) = Some (EvWarnCouldNotOpen name).
Proof.
  intros Hfo Hname Hcfd Hfd.
  destruct (start_fileoutput_outcomes m fo name Hfo Hname)
    as (w & t & [-> | [[_ ->] | [_ [h ->]]]]); simpl.
  - rewrite Hfo. intros [= <-]. congruence.
  - intros _ _. split; [reflexivity|]. split.
    + destruct (logger m). eexists. simpl. rewrite Hcfd. eauto.
    + rewrite !app_assoc.
      change [EvFile name; EvWarnCouldNotOpen name]
        with ([EvFile name] ++ [EvWarnCouldNotOpen name]).
      rewrite app_assoc. apply last_snoc.
  - destruct (logger m). simpl. intros [= <-]. discriminate.
Qed.

Lemma write_file_failure u c m fo name fo' :
  fileoutput (logger m) = Some fo → filename fo = Some name →
  close_fd fo = false → fd fo = FdNone →
  fileoutput (logger (start_fileoutput m).2) = Some fo' → fd fo' = FdDummy →
  codecs_lookup (output_encoding (logger m)) = Some c →
  write (PyUnicode u) m = (Ok tt, (start_fileoutput m).2).
Proof.
  intros Hfo Hname Hcfd Hfd Hfo' Hdummy Hcodec.
  destruct (start_fileoutput_outcomes m fo name Hfo Hname)
    as (w & t & [Hrun | [[_ Hrun] | [_ [h Hrun]]]]);
    rewrite Hrun in Hfo'; cbn in Hfo'.
  - rewrite Hfo in Hfo'. injection Hfo' as <-. congruence.
  - unfold write, encode, unicode_encode, fd_write. unfold_monad. rewrite Hfo, Hname. cbn.
    rewrite Hrun. cbn. rewrite bool_decide_eq_false_2 by discriminate. cbn.
    rewrite Hcodec. reflexivity.
  - injection Hfo' as <-. discriminate.
Qed.
End fileoutput.

(** *** On the small environment *)

(** C7, where the code departs from it: on a read-only disk the
    directory of the log file cannot be made; [os.makedirs] raises
    [OSError], which [except IOError] does not catch, and [write] raises
    it to its caller.  No warning is logged, no dummy is put in place, the
    file name stays. *)
Theorem write_raises_when_makedirs_fails :
  let m := file_logger "/var/log/lc/out.txt" true in
  let r := @write posix_env hi m in
  r.1 = Raise OSError ∧
  except_clause [IOError] OSError = false ∧
  fileoutput (logger r.2) =
    Some {| filename := Some "/var/log/lc/out.txt"; close_fd := false; fd := FdNone |} ∧
  trace r.2 = [EvMakedirs "/var/log/lc"].
Proof. vm_compute. repeat split. Qed.

(** C8, where the code departs from it: after the first [write] has
    raised the [OSError] of [os.makedirs], the file name is still there,
    and the second [write] tries to open again. *)
Theorem second_write_opens_again :
  let m := file_logger "/var/log/lc/out.txt" true in
  (@write posix_env hi m).1 = Raise OSError ∧
  (@write posix_env hi (@write posix_env hi m).2).1 = Raise OSError ∧
  openings (trace (@session posix_env base_renderer [Write hi; Write hi] m)) =
    [EvMakedirs "/var/log/lc"; EvMakedirs "/var/log/lc"].
Proof. vm_compute. repeat split. Qed.

(** When it is [file] that fails (no directory to make), the logger
    warns once, discards, and flushing and closing do nothing. *)
Example write_when_file_fails :
  let m := file_logger "out.txt" true in
  let m1 := (@write posix_env hi m).2 in
  (@write posix_env hi m).1 = Ok tt ∧
  trace m1 = [EvFile "out.txt"; EvWarnCouldNotOpen "out.txt"] ∧
  trace (@session posix_env base_renderer
           [Write hi; Flush; CloseFileoutput; Flush; CloseFileoutput] m1) = trace m1.
Proof. vm_compute. repeat split. Qed.

(** On a writable disk the directory is made, the file opened, written,
    flushed and closed, once each. *)
Example write_makes_directory :
  trace (@session posix_env base_renderer
           [Write hi; Write hi; CloseFileoutput; CloseFileoutput]
           (file_logger "/var/log/lc/out.txt" false)) =
  [EvMakedirs "/var/log/lc"; EvFile "/var/log/lc/out.txt";
   EvWrite 3 ["h"; "i"]%byte; EvWrite 3 ["h"; "i"]%byte; EvFlush 3; EvClose 3].
Proof. vm_compute. reflexivity. Qed.

Lemma line_renderer_keeps_borrowed `{!Env} : @keeps_borrowed _ line_renderer.
Proof.
  intros u m Hm. cbn [log_url line_renderer].
  match goal with |- context [writeln ?x] =>
    destruct (@borrowed_invoke _ line_renderer (Writeln x) m eq_refl Hm) as [Hb Hc];
    cbn [invoke] in Hb, Hc
  end.
  apply bind_snd.
  - auto.
  - intros _. rewrite <- Hc. apply borrowed_flush, Hb.
Qed.

Lemma close_fileoutput_ownership_witness :
  let m1 := (@write posix_env hi (file_logger "/var/log/lc/out.txt" false)).2 in
  (∃ m', @close_fileoutput posix_env m1 = (Ok tt, m') ∧
         trace m' = trace m1 ++ [EvFlush 3; EvClose 3] ∧
         @close_fileoutput posix_env m' = (Ok tt, m')) ∧
  closes (trace (@session posix_env line_renderer
                   [LogFilterUrl ok_link true; Write hi; Flush; CloseFileoutput;
                    LogFilterUrl broken_link true; CloseFileoutput]
                   (@init_fileoutput posix_env (fd_args 7)
                      (@fresh posix_env no_args (empty_disk false))).2)) =
    closes (trace (@fresh posix_env no_args (empty_disk false))).
Proof.
  intros m1.
  destruct (@close_fileoutput_ownership posix_env line_renderer)
    as (Hflushed & _ & _ & _ & Hagain & Howned & _ & _ & Hintake).
  split.
  - pose proof (Howned m1
                  {| filename := None; close_fd := true; fd := FdStream 3 |}
                  3%nat None (world m1) (world m1)
                  eq_refl eq_refl eq_refl eq_refl
                  ltac:(intros e He; discriminate He)
                  eq_refl) as Hrun.
    eexists. split; [exact Hrun|]. split.
    + destruct (Hflushed m1 _ _ 3%nat eq_refl eq_refl Hrun) as [Htrace _].
      exact Htrace.
    + apply (Hagain m1 _ Hrun).
  - apply (Hintake line_renderer_keeps_borrowed (fd_args 7)); [reflexivity|].
    repeat constructor.
Defined.

(** * More of the module *)

(** Splits an equation between tuples into its components. *)
Ltac tuple5 := repeat (apply (f_equal2 pair)).

(** ** Accounting *)

Section more_accounting.
Context `{!Env} `{!Renderer}.

Lemma add5_assoc a b c : add5 (add5 a b) c = add5 a (add5 b c).
Proof.
  destruct a as [[[[a1 a2] a3] a4] a5], b as [[[[b1 b2] b3] b4] b5],
    c as [[[[c1 c2] c3] c4] c5]. simpl. tuple5; lia.
Qed.

Lemma totals_cons u p xs :
  totals ((u, p) :: xs) = add5 (increments u p) (totals xs).
Proof.
  unfold totals, increments, is_invalid, is_invalid_printed, num_warnings,
    num_warnings_printed. cbn [List.filter sum_list_with length fst snd add5].
  destruct (UrlData.valid u), p; cbn [negb andb length]; tuple5; lia.
Qed.

Lemma session_totals_from cs m :
  keeps_accounting →
  counters (logger (session cs m)) = add5 (counters (logger m)) (totals (intakes cs)).
Proof.
  intros Hkeep. revert m. induction cs as [|c cs IH]; intros m.
  - unfold counters. cbn. tuple5; lia.
  - rewrite session_cons, IH, (invoke_counters c m Hkeep).
    destruct c; try reflexivity.
    change (intakes (LogFilterUrl url_data do_print :: cs))
      with ((url_data, do_print) :: intakes cs).
    rewrite totals_cons, add5_assoc. reflexivity.
Qed.

(** X1: a printed intake of an invalid URL with [W] warnings adds one to
    [number], [errors] and [errors_printed] and [W] to [warnings] and
    [warnings_printed]; [log_url] is called on the logger that already has
    these counts, and what it returns or raises is the outcome of the
    call. *)
Theorem log_filter_url_printed_invalid (Hkeep : keeps_accounting) u m :
  UrlData.valid u = false →
  let W := Z.of_nat (length (UrlData.warnings u)) in
  (∃ m1, log_filter_url u true m = log_url u m1 ∧
         counters (logger m1) =
           add5 (counters (logger m)) (1, 1, 1, W, W) ∧
         world m1 = world m ∧ trace m1 = trace m) ∧
  counters (logger (log_filter_url u true m).2) =
    add5 (counters (logger m)) (1, 1, 1, W, W).
Proof.
  intros Hu W. split.
  - unfold log_filter_url. unfold_monad. rewrite Hu. cbn.
    eexists. split; [reflexivity|]. repeat split.
  - rewrite (log_filter_url_counters u true m Hkeep). unfold increments.
    rewrite Hu. reflexivity.
Qed.

(** X2: whatever else is called in between, the counters of a logger
    are the totals over its intake calls: the URLs, the invalid ones, the
    invalid ones printed, the warnings, the warnings printed. *)
Theorem session_totals (Hkeep : keeps_accounting) cs args w :
  counters (logger (session cs (fresh args w))) = totals (intakes cs).
Proof.
  rewrite (session_totals_from cs _ Hkeep). cbn [fresh logger].
  destruct (totals (intakes cs)) as [[[[a1 a2] a3] a4] a5]. reflexivity.
Qed.
End more_accounting.

Lemma log_filter_url_printed_invalid_witness :
  counters (logger (@log_filter_url posix_env silent_renderer broken_link true
                      (@fresh posix_env no_args (empty_disk false))).2) =
  (1, 1, 1, 2, 2).
Proof.
  apply (@log_filter_url_printed_invalid posix_env silent_renderer
           silent_renderer_keeps_accounting broken_link).
  reflexivity.
Defined.

Lemma session_totals_witness :
  counters (logger (@session posix_env silent_renderer
                      [LogFilterUrl broken_link true; StartOutput;
                       LogFilterUrl ok_link true; LogFilterUrl broken_link false]
                      (@fresh posix_env no_args (empty_disk false)))) =
  (3, 2, 1, 4, 2).
Proof.
  apply (@session_totals posix_env silent_renderer silent_renderer_keeps_accounting).
Defined.

(** ** Alignment *)

Section more_alignment.
Context `{!Env}.

(** The label lengths [start_output] takes the maximum of. *)
Lemma label_lengths_inv parts lens :
  res_map (fun x => res_bind (part x) (fun v => Ok (len v))) parts = Ok lens →
  Forall (fun k => is_ok (part k) = true) parts ∧
  Forall (fun k => k ∈ field_names) parts.
Proof.
  intros Hlens. apply res_map_inv in Hlens.
  assert (Hok : Forall (fun k => is_ok (part k) = true) parts).
  { eapply Forall2_Forall_l; [exact Hlens|]. apply Forall_forall.
    intros n _ k. simpl. destruct (part k); [reflexivity|discriminate]. }
  split; [exact Hok|]. eapply Forall_impl; [exact Hok|].
  intros k Hk. destruct (decide (k ∈ field_names)) as [|Hn]; [assumption|].
  unfold part in Hk. rewrite (Fields_lookup_None k Hn) in Hk. discriminate.
Qed.

Lemma res_map_raise {A B} (f : A → Res B) xs e :
  res_map f xs = Raise e → ∃ x, x ∈ xs ∧ f x = Raise e.
Proof.
  induction xs as [|x xs IH]; simpl; [discriminate|].
  destruct (f x) as [y|e'] eqn:Hfx; simpl.
  - destruct (res_map f xs) as [ys|e']; simpl; [discriminate|].
    intros [= ->]. destruct (IH eq_refl) as (x' & Hin & Hx').
    exists x'. split; [right; exact Hin|exact Hx'].
  - intros [= ->]. exists x. split; [left|exact Hfx].
Qed.

(** A [start_output] that returns, in full: the machine it leaves. *)
Lemma start_output_run m m' :
  start_output m = (Ok tt, m') →
  ∃ lens mx sp,
    res_map (fun x => res_bind (part x) (fun v => Ok (len v)))
            (selection (logger m)) = Ok lens ∧
    py_max lens = Ok mx ∧
    m' = {| logger := set_logspaces (fun _ => sp)
                        (set_max_indent (fun _ => mx + 1) (logger m));
            world := world m; trace := trace m |} ∧
    (∀ key, key ∈ selection (logger m) →
       ∃ label, part key = Ok label ∧
                sp !! key = Some (spaces_of (mx + 1 - len label))) ∧
    (∀ key, key ∉ selection (logger m) → sp !! key = logspaces (logger m) !! key).
Proof.
  unfold start_output, bind, get_logger, lift. fold (selection (logger m)).
  destruct (res_map _ (selection (logger m))) as [lens|e] eqn:Hlens; [|discriminate].
  destruct (py_max lens) as [mx|e] eqn:Hmx; [|discriminate].
  unfold modify_logger. intros Hrun.
  destruct (label_lengths_inv _ _ Hlens) as [Hok _].
  match type of Hrun with
  | start_output_loop _ ?m1 = _ =>
      destruct (start_output_loop_spec _ m1 Hok) as (sp & Hloop & Hin & Hout)
  end.
  rewrite Hloop in Hrun. injection Hrun as <-.
  exists lens, mx, sp. repeat split; assumption.
Qed.

(** X3: [start_output] raises [ValueError] on an empty selection and
    [KeyError] on a selection that names something that is no field, and
    then leaves the logger as it was; on any other selection it returns. *)
Theorem start_output_faults m :
  (selection (logger m) = [] → start_output m = (Raise ValueError, m)) ∧
  ((∃ name, name ∈ selection (logger m) ∧ name ∉ field_names) →
   start_output m = (Raise KeyError, m)) ∧
  (selection (logger m) ≠ [] →
   Forall (fun k => k ∈ field_names) (selection (logger m)) →
   ∃ m', start_output m = (Ok tt, m')).
Proof.
  split; [|split].
  - intros Hnil. unfold start_output, bind, get_logger, lift.
    fold (selection (logger m)). rewrite Hnil. destruct m; reflexivity.
  - intros (name & Hin & Hno). unfold start_output, bind, get_logger, lift.
    fold (selection (logger m)).
    destruct (res_map _ (selection (logger m))) as [lens|e] eqn:Hlens.
    + destruct (label_lengths_inv _ _ Hlens) as [_ Hnames].
      rewrite Forall_forall in Hnames. destruct (Hno (Hnames name Hin)).
    + apply res_map_raise in Hlens as (x & _ & Hx). unfold part in Hx.
      destruct (Fields !! x); simpl in Hx; [discriminate|].
      injection Hx as <-. destruct m; reflexivity.
  - apply start_output_returns.
Qed.

(** X4: after a [start_output] that has returned, every selected name
    has at least one space of padding and at most [max_indent]. *)
Theorem spaces_at_least_one m m' name :
  start_output m = (Ok tt, m') → name ∈ selection (logger m) →
  ∃ pad, spaces (logger m') name = Ok pad ∧
         1 ≤ Z.of_nat (length pad) ∧ Z.of_nat (length pad) ≤ max_indent (logger m').
Proof.
  intros Hrun Hname.
  destruct (start_output_run m m' Hrun) as (lens & mx & sp & Hlens & Hmx & -> & Hin & _).
  destruct (Hin name Hname) as (label & Hlabel & Hsp).
  exists (spaces_of (mx + 1 - len label)). unfold spaces.
  cbn [logger max_indent logspaces set_logspaces set_max_indent]. rewrite Hsp.
  split; [reflexivity|].
  assert (Hle : len label ≤ mx).
  { apply py_max_spec in Hmx as [_ Hle]. apply Hle.
    apply res_map_inv in Hlens. apply list_elem_of_lookup in Hname as [i Hi].
    destruct (Forall2_lookup_l _ _ _ _ _ Hlens Hi) as (n & Hn & Hfn).
    rewrite Hlabel in Hfn. simpl in Hfn. injection Hfn as <-.
    apply list_elem_of_lookup. eauto. }
  assert (0 ≤ len label) by (unfold len; lia).
  rewrite length_spaces_of by lia. lia.
Qed.

(** X5: [start_output] is idempotent: run again on the logger it left, it
    returns and leaves that logger. *)
Theorem start_output_twice m m' :
  start_output m = (Ok tt, m') → start_output m' = (Ok tt, m').
Proof.
  intros Hrun.
  destruct (start_output_run m m' Hrun) as (lens & mx & sp & Hlens & Hmx & -> & Hin & Hout).
  assert (Hsel : selection (set_logspaces (fun _ => sp)
                   (set_max_indent (fun _ => mx + 1) (logger m))) = selection (logger m))
    by reflexivity.
  unfold start_output, bind, get_logger, lift. cbn [logger].
  match goal with |- context [res_map ?f (match logparts ?l with _ => _ end)] =>
    change (match logparts l with None => Fields_keys | Some ps => ps end)
      with (selection l) end.
  rewrite Hsel, Hlens, Hmx. unfold modify_logger. cbn [logger world trace].
  destruct (label_lengths_inv _ _ Hlens) as [Hok _].
  match goal with
  | |- start_output_loop _ ?m1 = _ =>
      destruct (start_output_loop_spec _ m1 Hok) as (sp2 & -> & Hin2 & Hout2)
  end.
  cbn [logger world trace] in *. f_equal. f_equal.
  assert (Heq : sp2 = sp).
  { apply map_eq. intros key.
    destruct (decide (key ∈ selection (logger m))) as [Hk|Hk].
    - destruct (Hin key Hk) as (label & Hlabel & ->).
      destruct (Hin2 key Hk) as (label2 & Hlabel2 & ->).
      rewrite Hlabel in Hlabel2. injection Hlabel2 as <-. reflexivity.
    - rewrite (Hout2 key Hk). reflexivity. }
  rewrite Heq. destruct (logger m). reflexivity.
Qed.

(** X6: on a logger that [__init__] has just made, once [start_output]
    has returned, [spaces] has a padding exactly for the selected names
    and raises [KeyError] for every other name. *)
Theorem spaces_defined_iff_selected args w m' name :
  start_output (fresh args w) = (Ok tt, m') →
  (name ∈ selection (__init__ args) → is_ok (spaces (logger m') name) = true) ∧
  (name ∉ selection (__init__ args) → spaces (logger m') name = Raise KeyError).
Proof.
  intros Hrun.
  destruct (start_output_run _ m' Hrun) as (lens & mx & sp & _ & _ & -> & Hin & Hout).
  unfold spaces. cbn. split.
  - intros Hname. destruct (Hin name Hname) as (label & _ & ->). reflexivity.
  - intros Hname. rewrite (Hout name Hname). reflexivity.
Qed.

Lemma start_output_loop_rest parts m :
  without_alignment (logger (start_output_loop parts m).2) = without_alignment (logger m).
Proof.
  revert m. induction parts as [|key rest IH]; intros m; [reflexivity|].
  cbn [start_output_loop]. unfold_monad. destruct (part key); [|reflexivity].
  match goal with |- context [start_output_loop rest ?m1] => specialize (IH m1) end.
  destruct (start_output_loop rest _) as [[] ?]; exact IH.
Qed.

(** X7: [start_output] assigns [logspaces] and [max_indent] and nothing
    else: the other attributes of the logger stay, nothing is written and
    nothing outside is called, whether it returns or raises. *)
Theorem start_output_assigns_alignment_only m :
  without_alignment (logger (start_output m).2) = without_alignment (logger m) ∧
  world (start_output m).2 = world m ∧
  trace (start_output m).2 = trace m.
Proof.
  split; [|destruct (start_output_frame m) as (_ & ? & ?); auto].
  unfold start_output. unfold_monad.
  destruct (res_map _ _); [|reflexivity].
  destruct (py_max _); [|reflexivity].
  match goal with |- context [start_output_loop ?ps ?m1] =>
    pose proof (start_output_loop_rest ps m1) as Hloop end.
  destruct (start_output_loop _ _) as [[] ?]; exact Hloop.
Qed.
End more_alignment.

Lemma start_output_faults_witness :
  @start_output posix_env (parts_logger []) = (Raise ValueError, parts_logger []) ∧
  @start_output posix_env (parts_logger ["url"; "uri"]) =
    (Raise KeyError, parts_logger ["url"; "uri"]) ∧
  ∃ m', @start_output posix_env (parts_logger ["url"; "result"]) = (Ok tt, m').
Proof.
  split; [|split].
  - apply (proj1 (@start_output_faults posix_env (parts_logger []))). reflexivity.
  - apply (proj1 (proj2 (@start_output_faults posix_env (parts_logger ["url"; "uri"])))).
    exists "uri". split; by_decide.
  - apply (proj2 (proj2 (@start_output_faults posix_env (parts_logger ["url"; "result"])))).
    + discriminate.
    + repeat constructor; by_decide.
Defined.

Lemma spaces_at_least_one_witness :
  ∃ pad, spaces (logger (@start_output posix_env (parts_logger ["url"; "result"])).2) "url"
           = Ok pad ∧
         1 ≤ Z.of_nat (length pad) ∧
         Z.of_nat (length pad) ≤
           max_indent (logger (@start_output posix_env (parts_logger ["url"; "result"])).2).
Proof.
  apply (@spaces_at_least_one posix_env (parts_logger ["url"; "result"])).
  - reflexivity.
  - by_decide.
Defined.

Lemma start_output_twice_witness :
  let m' := (@start_output posix_env (parts_logger ["url"; "result"])).2 in
  @start_output posix_env m' = (Ok tt, m').
Proof.
  intros m'.
  apply (@start_output_twice posix_env (parts_logger ["url"; "result"])). reflexivity.
Defined.

Lemma spaces_defined_iff_selected_witness :
  let m' := (@start_output posix_env (parts_logger ["url"; "result"])).2 in
  is_ok (spaces (logger m') "result") = true ∧
  spaces (logger m') "name" = Raise KeyError.
Proof.
  intros m'. split.
  - apply (proj1 (@spaces_defined_iff_selected posix_env
                    (parts_args ["url"; "result"]) (empty_disk false) m' "result"
                    eq_refl)).
    by_decide.
  - apply (proj2 (@spaces_defined_iff_selected posix_env
                    (parts_args ["url"; "result"]) (empty_disk false) m' "name"
                    eq_refl)).
    by_decide.
Defined.

(** ** The text codec *)

Section more_codec.
Context `{!Env}.

Lemma codec_decode_fuel_nil c fuel : codec_decode_fuel c fuel [] = [].
Proof. destruct fuel; reflexivity. Qed.

(** Fuel beyond the length of the input changes nothing, and the text is
    no longer than the input. *)
Lemma codec_decode_fuel_enough c k :
  ∀ fuel1 fuel2 bs,
    (length bs ≤ k)%nat → (k ≤ fuel1)%nat → (k ≤ fuel2)%nat →
    codec_decode_fuel c fuel1 bs = codec_decode_fuel c fuel2 bs ∧
    (length (codec_decode_fuel c fuel1 bs) ≤ length bs)%nat.
Proof.
  induction k as [|k IH]; intros fuel1 fuel2 bs Hbs H1 H2.
  - destruct bs; [|simpl in Hbs; lia]. rewrite !codec_decode_fuel_nil. auto.
  - destruct bs as [|b tl]; [rewrite !codec_decode_fuel_nil; auto|].
    destruct fuel1 as [|f1]; [lia|]. destruct fuel2 as [|f2]; [lia|].
    cbn [codec_decode_fuel length] in *.
    destruct (decode_prefix c (b :: tl)) as [och n].
    assert (Hdrop : (length (drop n tl) ≤ k)%nat) by (rewrite length_drop; lia).
    destruct (IH f1 f2 (drop n tl) Hdrop) as [Heq Hlen]; [lia|lia|].
    rewrite Heq. split; [reflexivity|]. cbn [length].
    destruct (IH f2 f2 (drop n tl) Hdrop) as [_ Hlen2]; [lia|lia|].
    rewrite length_drop in Hlen2. lia.
Qed.


End more_codec.

(** ** The file output *)

Section more_fileoutput.
Context `{!Env}.

Lemma no_stream_flush m fo :
  fileoutput (logger m) = Some fo → fd fo = FdNone ∨ fd fo = FdDummy →
  flush m = (Ok tt, m).
Proof.
  destruct m as [[lp ls mi n e ep wn wp enc fout] w t], fo as [fname cfd f].
  simpl. intros -> [-> | ->]; reflexivity.
Qed.

(** X11: initialising for a file creates nothing, and as long as
    nothing is written, flushing, closing and [start_output] call nothing
    outside either: the logger still holds the file name and no file
    object. *)
Theorem no_write_no_file `{!Renderer} args name cs m :
  arg_fileoutput args = true → arg_filename args = Some name →
  Forall (fun c => writes_nothing c = true) cs →
  let m' := session cs (init_fileoutput args m).2 in
  world m' = world m ∧ trace m' = trace m ∧
  fileoutput (logger m') =
    Some {| filename := Some (os_path_expanduser name); close_fd := false; fd := FdNone |}.
Proof.
  intros Hfile Hname Hcs.
  set (fo := {| filename := Some (os_path_expanduser name); close_fd := false;
                fd := FdNone |}).
  assert (Hinit : world (init_fileoutput args m).2 = world m ∧
                  trace (init_fileoutput args m).2 = trace m ∧
                  fileoutput (logger (init_fileoutput args m).2) = Some fo).
  { unfold init_fileoutput. rewrite Hfile, Hname. unfold_monad.
    destruct m as [[lp ls mi n e ep wn wp enc fout] w t]. repeat split. }
  revert Hinit. generalize (init_fileoutput args m).2. clear Hfile Hname.
  induction Hcs as [|c cs Hc _ IH]; intros m0 Hm0; [exact Hm0|].
  cbv zeta. rewrite session_cons. apply IH.
  destruct Hm0 as (Hw & Ht & Hfo).
  destruct c; try discriminate Hc; cbn [invoke].
  - rewrite (close_fileoutput_closed m0 fo Hfo eq_refl). auto.
  - rewrite (no_stream_flush m0 fo Hfo (or_introl eq_refl)). auto.
  - destruct (start_output_frame m0) as (-> & -> & ->). auto.
Qed.


(** X14: the first write to a logger that holds a file name, when the
    directory is there or can be made and [file] and the write succeed:
    the directory is made if it was missing, the file is opened and
    handed the encoded text, and the logger owns it and has dropped the
    name. *)
Theorem write_opens_file u c m fo name h t w1 w2 w3 :
  fileoutput (logger m) = Some fo → filename fo = Some name →
  codecs_lookup (output_encoding (logger m)) = Some c →
  let path := os_path_dirname name in
  ((path = "" ∨ os_path_isdir path (world m) = true) ∧ w1 = world m ∧ t = []) ∨
  (path ≠ "" ∧ os_path_isdir path (world m) = false ∧
   os_makedirs path (world m) = (true, w1) ∧ t = [EvMakedirs path]) →
  file_wb name w1 = (Some h, w2) →
  stream_write h (codec_encode c u) w2 = (None, w3) →
  write (PyUnicode u) m =
    (Ok tt,
     {| logger := set_fileoutput (fun _ =>
          Some {| filename := None; close_fd := true; fd := FdStream h |}) (logger m);
        world := w3;
        trace := trace m ++ t ++ [EvFile name; EvWrite h (codec_encode c u)] |}).
Proof.
  destruct m as [[lp ls mi n e ep wn wp enc fout] w t0], fo as [fname cfd f].
  simpl. intros -> -> Hc Hdir Hfile Hwrite.
  unfold write, start_fileoutput, makedirs, file, encode, unicode_encode, fd_write.
  unfold_monad. simpl.
  destruct Hdir as [([Hpath | Hisdir] & -> & ->) | (Hpath & Hisdir & Hmk & ->)].
  - rewrite Hpath. simpl. rewrite Hfile. simpl. rewrite Hc. simpl.
    rewrite Hwrite. simpl. rewrite <- !app_assoc. reflexivity.
  - destruct (bool_decide (os_path_dirname name ≠ "")); simpl;
      rewrite ?Hisdir; simpl; rewrite Hfile; simpl; rewrite Hc; simpl;
      rewrite Hwrite; simpl; rewrite <- !app_assoc; reflexivity.
  - rewrite (bool_decide_eq_true_2 _ Hpath). simpl. rewrite Hisdir. simpl.
    rewrite Hmk. simpl. rewrite Hfile. simpl. rewrite Hc. simpl.
    rewrite Hwrite. simpl. rewrite <- !app_assoc. reflexivity.
Qed.

(** X15: [os.makedirs] is not called when the file name has no
    directory part or the directory is there: the first thing
    [start_fileoutput] then calls is [file]. *)
Theorem makedirs_only_when_missing m fo name :
  fileoutput (logger m) = Some fo → filename fo = Some name →
  os_path_dirname name = "" ∨ os_path_isdir (os_path_dirname name) (world m) = true →
  ∃ t, trace (start_fileoutput m).2 = trace m ++ EvFile name :: t ∧
       closes (EvFile name :: t) = [] ∧
       openings (EvFile name :: t) = [EvFile name].
Proof.
  destruct m as [[lp ls mi n e ep wn wp enc fout] w t0], fo as [fname cfd f].
  simpl. intros -> -> Hdir.
  unfold start_fileoutput, makedirs, file. unfold_monad. simpl.
  assert (Hskip :
    (if bool_decide (os_path_dirname name ≠ "")
     then negb (os_path_isdir (os_path_dirname name) w) else false) = false).
  { destruct Hdir as [-> | ->]; [reflexivity|]. destruct (bool_decide _); reflexivity. }
  destruct (bool_decide (os_path_dirname name ≠ "")); simpl in *;
    rewrite ?Hskip; simpl;
    destruct (file_wb name w) as [[h|] w2]; simpl;
    rewrite <- ?app_assoc; eexists; (split; [reflexivity|split; reflexivity]).
Qed.

(** X16: [writeln] on an open file object writes the text and then the
    line separator, each encoded; when the write of the text raises, the
    separator is not written and [writeln] raises the same. *)
Theorem writeln_line s m :
  (∀ e, (write s m).1 = Raise e → writeln s m = write s m) ∧
  (∀ u c fo h w1 w2,
      s = PyUnicode u →
      fileoutput (logger m) = Some fo → filename fo = None → fd fo = FdStream h →
      codecs_lookup (output_encoding (logger m)) = Some c →
      stream_write h (codec_encode c u) (world m) = (None, w1) →
      stream_write h (codec_encode c os_linesep) w1 = (None, w2) →
      writeln s m =
        (Ok tt, {| logger := logger m; world := w2;
                   trace := trace m ++ [EvWrite h (codec_encode c u);
                                        EvWrite h (codec_encode c os_linesep)] |})).
Proof.
  split.
  - intros e He. unfold writeln, bind. destruct (write s m) as [[[]|e'] m'];
      [discriminate|reflexivity].
  - intros u c fo h w1 w2 -> Hfo Hname Hfd Hc Hw1 Hw2.
    destruct m as [[lp ls mi n e ep wn wp enc fout] w t0], fo as [fname cfd f].
    simpl in *. subst.
    unfold writeln, write, encode, unicode_encode, fd_write. unfold_monad. simpl.
    rewrite Hc. simpl. rewrite Hw1. simpl. rewrite Hc. simpl. rewrite Hw2. simpl.
    rewrite <- !app_assoc. reflexivity.
Qed.

(** X17: [write] checks for unicode only when there is a file object.
    With a file object or a dummy, a value that is not unicode raises
    before anything is written: [ValueError], or [TypeError] from the
    formatting of the message when the value is a tuple that has not
    exactly one item.  With [None] for [fd] the value is dropped with the
    warning and nothing is raised. *)
Theorem write_non_unicode v m fo :
  is_unicode v = false →
  fileoutput (logger m) = Some fo → filename fo = None →
  (fd fo = FdNone →
   write v m = (Ok tt, {| logger := logger m; world := world m;
                          trace := trace m ++ [EvWarnClosedFile] |})) ∧
  (fd fo ≠ FdNone → (∀ items, v = PyTuple items → length items = 1%nat) →
   write v m = (Raise ValueError, m)) ∧
  (fd fo ≠ FdNone → ∀ items, v = PyTuple items → length items ≠ 1%nat →
   write v m = (Raise TypeError, m)).
Proof.
  intros Hv Hfo Hname. split; [|split].
  - intros Hfd. apply (write_without_stream v m fo Hfo Hname Hfd).
  - destruct m as [[lp ls mi n e ep wn wp enc fout] w t0], fo as [fname cfd f].
    simpl in *. subst. intros Hfd Hone.
    unfold write, encode. unfold_monad. simpl.
    rewrite (bool_decide_eq_false_2 _ Hfd).
    destruct v as [u|b| |items]; [discriminate|reflexivity|reflexivity|].
    simpl. rewrite (bool_decide_eq_true_2 _ (Hone items eq_refl)). reflexivity.
  - destruct m as [[lp ls mi n e ep wn wp enc fout] w t0], fo as [fname cfd f].
    simpl in *. subst. intros Hfd items -> Hlen.
    unfold write, encode. unfold_monad. simpl.
    rewrite (bool_decide_eq_false_2 _ Hfd). simpl.
    rewrite (bool_decide_eq_false_2 _ Hlen). reflexivity.
Qed.

(** X18: after a [close_fileoutput] that returned on a logger without a
    pending file name, a write opens nothing and writes nothing: it logs
    the warning and returns. *)
Theorem write_after_close s m m' fo :
  fileoutput (logger m) = Some fo → filename fo = None →
  close_fileoutput m = (Ok tt, m') →
  write s m' = (Ok tt, {| logger := logger m'; world := world m';
                          trace := trace m' ++ [EvWarnClosedFile] |}).
Proof.
  intros Hfo Hname Hclose.
  destruct (close_fileoutput_returns m m' fo Hfo Hclose) as [Hfo' _].
  apply (write_without_stream s m' _ Hfo'); [exact Hname|reflexivity].
Qed.

(** X19: when [close_fileoutput] raises (the flush or the close of the
    file object did), the logger is as it was: [fd] is not reset, and
    the next [close_fileoutput] tries again. *)
Theorem close_fileoutput_raise_keeps m e :
  (close_fileoutput m).1 = Raise e →
  logger (close_fileoutput m).2 = logger m.
Proof.
  destruct m as [[lp ls mi n e0 ep wn wp enc fout] w t0].
  unfold close_fileoutput, flush, fd_flush, fd_close. unfold_monad. simpl.
  destruct fout as [[fname cfd [| |h]]|]; simpl; try reflexivity.
  - destruct cfd; simpl; discriminate.
  - destruct (stream_flush h w) as [[x|] w1]; simpl.
    + destruct x; simpl; try reflexivity;
        (destruct cfd; simpl;
         [destruct (stream_close h w1) as [[y|] w2]; simpl|];
         try reflexivity; discriminate).
    + destruct cfd; simpl;
        [destruct (stream_close h w1) as [[y|] w2]; simpl|];
        try reflexivity; discriminate.
Qed.

(** X20: a logger on which [init_fileoutput] has not run has no file
    attributes: [write], [close_fileoutput] and [start_fileoutput] raise
    [AttributeError], while [flush] checks for the attribute and
    returns. *)
Theorem without_init_fileoutput s m :
  fileoutput (logger m) = None →
  write s m = (Raise AttributeError, m) ∧
  close_fileoutput m = (Raise AttributeError, m) ∧
  start_fileoutput m = (Raise AttributeError, m) ∧
  flush m = (Ok tt, m).
Proof.
  destruct m as [[lp ls mi n e ep wn wp enc fout] w t]. simpl. intros ->.
  repeat split.
Qed.
End more_fileoutput.

Lemma no_write_no_file_witness :
  let m := @fresh posix_env no_args (empty_disk false) in
  trace (@session posix_env base_renderer [Flush; StartOutput; CloseFileoutput; Flush]
           (@init_fileoutput posix_env (file_args "/var/log/lc/out.txt") m).2) = trace m.
Proof.
  intros m.
  apply (@no_write_no_file posix_env base_renderer
           (file_args "/var/log/lc/out.txt") "/var/log/lc/out.txt");
    [reflexivity | reflexivity | repeat constructor].
Defined.


Lemma write_opens_file_witness :
  trace (@write posix_env hi (file_logger "/var/log/lc/out.txt" false)).2 =
  [EvMakedirs "/var/log/lc"; EvFile "/var/log/lc/out.txt"; EvWrite 3 [x68; x69]].
Proof.
  pose (w1 := (disk_makedirs "/var/log/lc" (empty_disk false)).2).
  pose (w2 := (disk_file_wb "/var/log/lc/out.txt" w1).2).
  assert (Hdir :
    (@os_path_dirname posix_env "/var/log/lc/out.txt" = "" ∨
     @os_path_isdir posix_env (@os_path_dirname posix_env "/var/log/lc/out.txt")
       (world (file_logger "/var/log/lc/out.txt" false)) = true) ∧
    w1 = world (file_logger "/var/log/lc/out.txt" false) ∧
    [EvMakedirs "/var/log/lc"] = [] ∨
    @os_path_dirname posix_env "/var/log/lc/out.txt" ≠ "" ∧
    @os_path_isdir posix_env (@os_path_dirname posix_env "/var/log/lc/out.txt")
      (world (file_logger "/var/log/lc/out.txt" false)) = false ∧
    @os_makedirs posix_env (@os_path_dirname posix_env "/var/log/lc/out.txt")
      (world (file_logger "/var/log/lc/out.txt" false)) = (true, w1) ∧
    [EvMakedirs "/var/log/lc"] =
      [EvMakedirs (@os_path_dirname posix_env "/var/log/lc/out.txt")]).
  { right. split; [discriminate|]. repeat split. }
  unfold hi.
  rewrite (@write_opens_file posix_env [104; 105]%N ascii_codec
             (file_logger "/var/log/lc/out.txt" false)
             {| filename := Some "/var/log/lc/out.txt"; close_fd := false; fd := FdNone |}
             "/var/log/lc/out.txt" 3%nat [EvMakedirs "/var/log/lc"] w1 w2 w2
             eq_refl eq_refl eq_refl Hdir eq_refl eq_refl).
  reflexivity.
Defined.

Lemma makedirs_only_when_missing_witness :
  ∃ t, trace (@start_fileoutput posix_env (file_logger "out.txt" false)).2 =
       trace (file_logger "out.txt" false) ++ EvFile "out.txt" :: t.
Proof.
  destruct (@makedirs_only_when_missing posix_env (file_logger "out.txt" false)
              _ "out.txt" eq_refl eq_refl (or_introl eq_refl)) as (t & Ht & _).
  exists t. exact Ht.
Defined.

Lemma writeln_line_witness :
  trace (@writeln posix_env hi (fd_logger 7)).2 =
  [EvWrite 7 [x68; x69]; EvWrite 7 [x0a]].
Proof.
  erewrite (proj2 (@writeln_line posix_env hi (fd_logger 7))
              [104; 105]%N ascii_codec _ 7%nat);
    reflexivity.
Defined.

Lemma write_non_unicode_witness :
  @write posix_env (PyStr [x68; x69]) (fd_logger 7) = (Raise ValueError, fd_logger 7) ∧
  @write posix_env (PyTuple []) (fd_logger 7) = (Raise TypeError, fd_logger 7).
Proof.
  split.
  - eapply (proj1 (proj2 (@write_non_unicode posix_env (PyStr [x68; x69]) (fd_logger 7) _
                            eq_refl eq_refl eq_refl))).
    + discriminate.
    + intros items Hitems. discriminate Hitems.
  - eapply (proj2 (proj2 (@write_non_unicode posix_env (PyTuple []) (fd_logger 7) _
                            eq_refl eq_refl eq_refl))).
    + discriminate.
    + reflexivity.
    + discriminate.
Defined.

Lemma write_after_close_witness :
  let m' := (@close_fileoutput posix_env (fd_logger 7)).2 in
  (@write posix_env hi m').1 = Ok tt ∧
  trace (@write posix_env hi m').2 = trace m' ++ [EvWarnClosedFile].
Proof.
  intros m'.
  rewrite (@write_after_close posix_env hi (fd_logger 7) m' _ eq_refl eq_refl eq_refl).
  split; reflexivity.
Defined.

Lemma close_fileoutput_raise_keeps_witness :
  (@close_fileoutput closed_stream_env (closed_fd_logger 7)).1 = Raise ValueError ∧
  logger (@close_fileoutput closed_stream_env (closed_fd_logger 7)).2 =
    logger (closed_fd_logger 7).
Proof.
  split; [reflexivity|].
  apply (@close_fileoutput_raise_keeps closed_stream_env (closed_fd_logger 7) ValueError).
  reflexivity.
Defined.

Lemma without_init_fileoutput_witness :
  let m := @fresh posix_env no_args (empty_disk false) in
  @write posix_env hi m = (Raise AttributeError, m) ∧ @flush posix_env m = (Ok tt, m).
Proof.
  intros m.
  destruct (@without_init_fileoutput posix_env hi m eq_refl) as (Hw & _ & _ & Hf).
  split; assumption.
Defined.

Section more_init.
Context `{!Env}.

(** X21: [init_fileoutput] calls nothing outside and never takes
    ownership.  With [fileoutput] set it keeps the expanded file name and
    no file object, ignoring a given [fd]; with [fileoutput] set and no
    [filename] it raises [KeyError], the three attributes reset; otherwise
    it borrows the given file object, or [sys.stdout]. *)
Theorem init_fileoutput_modes args m :
  let r := init_fileoutput args m in
  world r.2 = world m ∧ trace r.2 = trace m ∧
  (∀ name, arg_fileoutput args = true → arg_filename args = Some name →
     r.1 = Ok tt ∧
     fileoutput (logger r.2) =
       Some {| filename := Some (os_path_expanduser name); close_fd := false;
               fd := FdNone |}) ∧
  (arg_fileoutput args = true → arg_filename args = None →
     r.1 = Raise KeyError ∧
     fileoutput (logger r.2) =
       Some {| filename := None; close_fd := false; fd := FdNone |}) ∧
  (arg_fileoutput args = false →
     r.1 = Ok tt ∧
     fileoutput (logger r.2) =
       Some {| filename := None; close_fd := false;
               fd := default (FdStream sys_stdout) (arg_fd args) |}).
Proof.
  destruct m as [[lp ls mi n e ep wn wp enc fout] w t].
  unfold init_fileoutput. unfold_monad. cbv zeta.
  destruct (arg_fileoutput args), (arg_filename args) as [name|],
    (arg_fd args) as [f|]; simpl; repeat split; intros; try discriminate;
    simplify_eq; reflexivity.
Qed.
End more_init.

Lemma init_fileoutput_modes_witness :
  let args := {| arg_parts := None; arg_encoding := None; arg_fileoutput := true;
                 arg_filename := None; arg_fd := Some (FdStream 7%nat) |} in
  (@init_fileoutput posix_env args (@fresh posix_env no_args (empty_disk false))).1 =
    Raise KeyError ∧
  fileoutput (logger (file_logger "out.txt" false)) =
    Some {| filename := Some "out.txt"; close_fd := false; fd := FdNone |}.
Proof.
  intros args. split.
  - apply (proj1 (proj2 (proj2 (proj2 (@init_fileoutput_modes posix_env args
             (@fresh posix_env no_args (empty_disk false))))))); reflexivity.
  - apply (proj1 (proj2 (proj2 (@init_fileoutput_modes posix_env (file_args "out.txt")
             (@fresh posix_env no_args (empty_disk false))))) "out.txt"); reflexivity.
Defined.
